(** * pymoo: the epsilon-clearing primitive and the abstract algorithm driver

    A shallow embedding of [pymoo/util/clearing.py] and
    [pymoo/model/algorithm.py], and the properties of the two components.

    Conventions of the embedding.
    - A Python method that mutates [self] is a computation in the monad
      [M St]: it takes the object's state and gives back an outcome together
      with the state as it is left, also when an exception is raised half way.
    - numpy's float64 values are rationals ([Q]): the code only ever compares
      them, and the order of finite floats is the order of the rationals they
      denote.  NaN and the infinities are outside the model.
    - Array positions are natural numbers; Python's negative positions are not
      modelled (every position the code computes comes from [np.where],
      [argmin] or the sorting oracle and is non-negative).
    - [Algorithm._evaluate_if_not_done_yet] is not called by the driver and
      is left out. *)

From Stdlib Require Import QArith ZArith Lia Ascii String.
From stdpp Require Import base option list.

Local Open Scope nat_scope.

(* ===================================================================== *)
(** * Part I: definitions                                                  *)
(* ===================================================================== *)

(** ** Python computations: state, exceptions, and loops that may not end *)

Inductive exn : Type :=
  | IndexError
  | ValueError
  | AttributeError
  | Exception (msg : string)
  | Foreign (tag : nat).      (* an exception raised by a collaborator *)

Inductive outcome (A : Type) : Type :=
  | Ok (a : A)
  | Raise (e : exn)
  | OutOfFuel.                (* a [while] loop cut off by the fuel bound *)
Arguments Ok {A} a.
Arguments Raise {A} e.
Arguments OutOfFuel {A}.

Definition M (St A : Type) : Type := St -> outcome A * St.

Definition ret {St A} (a : A) : M St A := fun s => (Ok a, s).

Definition bind {St A B} (m : M St A) (k : A -> M St B) : M St B :=
  fun s =>
    match m s with
    | (Ok a, s') => k a s'
    | (Raise e, s') => (Raise e, s')
    | (OutOfFuel, s') => (OutOfFuel, s')
    end.

Definition raise {St A} (e : exn) : M St A := fun s => (Raise e, s).
Definition out_of_fuel {St A} : M St A := fun s => (OutOfFuel, s).
Definition get {St} : M St St := fun s => (Ok s, s).
Definition gets {St A} (f : St -> A) : M St A := fun s => (Ok (f s), s).
Definition modify {St} (f : St -> St) : M St unit := fun s => (Ok tt, f s).

(** [m] keeps the property [Q] of the state, whatever its outcome. *)
Definition preserves {St A} (Q : St -> Prop) (m : M St A) : Prop :=
  forall s r s', Q s -> m s = (r, s') -> Q s'.

(** [m] keeps the property [Q] of the state whenever it returns. *)
Definition preserves_ok {St A} (Q : St -> Prop) (m : M St A) : Prop :=
  forall s a s', Q s -> m s = (Ok a, s') -> Q s'.

(** A pure computation that may raise, run inside a stateful one. *)
Definition lift {St A} (r : outcome A) : M St A := fun s => (r, s).

Declare Scope py_scope.
Delimit Scope py_scope with py.
Notation "x <- m ;; k" := (bind m (fun x => k))
  (at level 100, m at next level, right associativity) : py_scope.
Notation "m ;;; k" := (bind m (fun _ => k))
  (at level 100, right associativity) : py_scope.
Local Open Scope py_scope.

(** ** numpy and container operations used by the two files *)

(** [a < b] on floats. *)
Definition Qltb (a b : Q) : bool :=
  match (a ?= b)%Q with Lt => true | _ => false end.

(** [np.where(mask)[0]]: the positions at which [mask] holds, ascending. *)
Fixpoint where_from (i : nat) (mask : list bool) : list nat :=
  match mask with
  | [] => []
  | b :: mask' => if b then i :: where_from (S i) mask' else where_from (S i) mask'
  end.
Definition np_where (mask : list bool) : list nat := where_from 0 mask.

(** [np.full(n, False)]. *)
Definition np_full_false (n : nat) : list bool := replicate n false.

(** [a[i]] for one integer position: IndexError out of range. *)
Definition getitem {A} (a : list A) (i : nat) : outcome A :=
  match a !! i with
  | Some x => Ok x
  | None => Raise IndexError
  end.

(** [a[I]] for a sequence of positions (fancy indexing): every position is
    checked, and one out of range raises IndexError. *)
Fixpoint take {A} (a : list A) (I : list nat) : outcome (list A) :=
  match I with
  | [] => Ok []
  | i :: I' =>
      match a !! i, take a I' with
      | Some x, Ok xs => Ok (x :: xs)
      | None, _ => Raise IndexError
      | Some _, r => r
      end
  end.

(** [a[mask]] for a boolean mask: the elements at which the mask holds. *)
Fixpoint compress {A} (mask : list bool) (a : list A) : list A :=
  match mask, a with
  | b :: mask', x :: a' => if b then x :: compress mask' a' else compress mask' a'
  | _, _ => []
  end.

(** [a[k] = True] for one position: IndexError out of range. *)
Definition setitem_true (a : list bool) (k : nat) : outcome (list bool) :=
  if decide (k < length a) then Ok (<[k := true]> a) else Raise IndexError.

(** [a[I] = True] for a sequence of positions: numpy checks every position
    before it writes, so nothing is written when one is out of range. *)
Definition setitems_true (a : list bool) (I : list nat) : outcome (list bool) :=
  if decide (Forall (fun i => i < length a) I)
  then Ok (foldl (fun c i => <[i := true]> c) a I)
  else Raise IndexError.

(** [a[mask] = True] for a boolean mask: the mask must have the length of
    the array (IndexError otherwise). *)
Definition setmask_true (a mask : list bool) : outcome (list bool) :=
  if decide (length mask = length a)
  then Ok (zip_with orb a mask)
  else Raise IndexError.

(** [a.argmin()] on a flat array: the first position of the least value;
    ValueError on an empty array.  The scan keeps the position of the least
    value seen so far and moves only on a strictly smaller one. *)
Fixpoint argmin_scan (best_i : nat) (best : Q) (i : nat) (a : list Q) : nat :=
  match a with
  | [] => best_i
  | x :: a' =>
      if Qltb x best then argmin_scan i x (S i) a'
      else argmin_scan best_i best (S i) a'
  end.
Definition np_argmin (a : list Q) : outcome nat :=
  match a with
  | [] => Raise ValueError
  | x :: a' => Ok (argmin_scan 0 x 1 a')
  end.

(** ** Individuals and populations

    Modelled from the spec: the classes [Individual] and [Population] are
    not among the source files.  An individual carries a decision vector
    [X], an objective vector [F], a constraint violation [CV], the raw
    constraints [G] and the flag [feasible]; a population is an ordered
    sequence of individuals, [pop.get(name)] is the column of that
    attribute and [pop[I]] the sub-population at the positions [I]. *)

Record Individual : Type := {
  X : list Q;
  F : list Q;
  CV : Q;
  G : list Q;
  feasible : bool
}.

Abbreviation Population := (list Individual).

(** [M[:, 0]] on the array [pop.get("F")] builds from the objective
    vectors, one row per individual.  The array has two dimensions only if
    there is at least one row and all rows have the same length; with no
    individual or with vectors of different lengths it has one dimension and
    the two-dimensional index raises IndexError, and so does column 0 of a
    matrix without columns. *)
Definition column0 (rows : list (list Q)) : outcome (list Q) :=
  match rows with
  | [] => Raise IndexError
  | r0 :: _ =>
      if forallb (fun r => length r =? length r0) rows then
        match mapM head rows with
        | Some col => Ok col
        | None => Raise IndexError
        end
      else Raise IndexError
  end.

(** [pop.collect(lambda ind: ind.feasible)[:, 0]]: the feasibility flags,
    collected one row per individual.  With no individual the collected
    array has one dimension and the two-dimensional index raises
    IndexError. *)
Definition feasible_column (p : Population) : outcome (list bool) :=
  match p with
  | [] => Raise IndexError
  | _ :: _ => Ok (map feasible p)
  end.

(** ** pymoo/util/clearing.py *)

Module Clearing.

(** The attributes of an [EpsilonClearing] object. *)
Record EpsilonClearing : Type := {
  self_D : list (list Q);
  self_n : nat;
  self_epsilon : Q;
  self_S : list nat;
  self_C : list bool
}.

Definition set_S (f : list nat -> list nat) (o : EpsilonClearing) :=
  {| self_D := self_D o; self_n := self_n o; self_epsilon := self_epsilon o;
     self_S := f (self_S o); self_C := self_C o |}.
Definition set_C (c : list bool) (o : EpsilonClearing) :=
  {| self_D := self_D o; self_n := self_n o; self_epsilon := self_epsilon o;
     self_S := self_S o; self_C := c |}.

(** [EpsilonClearing.__init__(D, epsilon)] *)
Definition init (D : list (list Q)) (epsilon : Q) : EpsilonClearing :=
  {| self_D := D;
     self_n := length D;
     self_epsilon := epsilon;
     self_S := [];
     self_C := np_full_false (length D) |}.

(** [remaining]: [np.where(~self.C)[0]] *)
Definition remaining : M EpsilonClearing (list nat) :=
  gets (fun o => np_where (map negb (self_C o))).

(** [has_remaining]: [self.C.sum() != self.n] *)
Definition has_remaining : M EpsilonClearing bool :=
  gets (fun o => negb (length (filter (fun b => b = true) (self_C o)) =? self_n o)).

Definition cleared : M EpsilonClearing (list bool) := gets self_C.

Definition selected : M EpsilonClearing (list nat) := gets self_S.

(** [reset]: a fresh all-false mask replaces [self.C], then the selected
    positions are marked in it. *)
Definition reset : M EpsilonClearing unit :=
  n <- gets self_n ;;
  modify (set_C (np_full_false n)) ;;;
  o <- get ;;
  c <- lift (setitems_true (self_C o) (self_S o)) ;;
  modify (set_C c).

(** [select(k)] *)
Definition select (k : nat) : M EpsilonClearing unit :=
  modify (set_S (fun s => s ++ [k])) ;;;
  o <- get ;;
  c <- lift (setitem_true (self_C o) k) ;;
  modify (set_C c) ;;;
  o <- get ;;
  row <- lift (getitem (self_D o) k) ;;
  let less_than_epsilon := map (fun d => Qltb d (self_epsilon o)) row in
  c <- lift (setmask_true (self_C o) less_than_epsilon) ;;
  modify (set_C c).

(** [func_select_by_objective(pop)] *)
Definition func_select_by_objective (pop : Population) : outcome nat :=
  match column0 (map F pop) with
  | Ok col => np_argmin col
  | Raise e => Raise e
  | OutOfFuel => OutOfFuel
  end.

(** The [while] loop of [select_by_clearing]; [fuel] bounds the number of
    times its body runs. *)
Fixpoint select_loop (fuel : nat) (pop : Population) (n_select : nat)
    (func_select : Population -> outcome nat) : M EpsilonClearing unit :=
  S_ <- selected ;;
  if length S_ <? n_select then
    match fuel with
    | 0 => out_of_fuel
    | S fuel' =>
        remaining_ <- remaining ;;
        (if length remaining_ =? 0 then reset else ret tt) ;;;
        sub <- lift (take pop remaining_) ;;
        i <- lift (func_select sub) ;;
        best <- lift (getitem remaining_ i) ;;
        select best ;;;
        select_loop fuel' pop n_select func_select
    end
  else ret tt.

(** [select_by_clearing(pop, D, n_select, func_select, eps)].  Every run of
    the loop body that does not raise adds one position to [S], so the body
    runs at most [n_select] times: that is the fuel given. *)
Definition select_by_clearing (pop : Population) (D : list (list Q))
    (n_select : nat) (func_select : Population -> outcome nat) (eps : Q)
    : outcome (list nat) * EpsilonClearing :=
  (select_loop n_select pop n_select func_select ;;; selected) (init D eps).

(** The methods of the class, as a caller may invoke them in any order. *)
Inductive op : Type :=
  | OpSelect (k : nat)
  | OpReset
  | OpRemaining
  | OpHasRemaining
  | OpCleared
  | OpSelected.

(** The state an operation leaves, whether it returns or raises (a caller
    may catch the exception and go on using the object). *)
Definition run_op (o : EpsilonClearing) (c : op) : EpsilonClearing :=
  match c with
  | OpSelect k => snd (select k o)
  | OpReset => snd (reset o)
  | OpRemaining => snd (remaining o)
  | OpHasRemaining => snd (has_remaining o)
  | OpCleared => snd (cleared o)
  | OpSelected => snd (selected o)
  end.

Definition run_ops (o : EpsilonClearing) (cs : list op) : EpsilonClearing :=
  foldl run_op o cs.

(** The shape of every state of an object built by the constructor, and
    the link between its selection and its mask. *)
Record consistent (D : list (list Q)) (eps : Q) (o : EpsilonClearing) : Prop := {
  cons_D : self_D o = D;
  cons_eps : self_epsilon o = eps;
  cons_n : self_n o = length D;
  cons_C : length (self_C o) = length D;
  cons_S : Forall (fun k => k < self_n o) (self_S o) ->
           forall k, k ∈ self_S o -> self_C o !! k = Some true
}.

(** *** Notions used to state what [select_by_clearing] returns *)

(** No position of [l] is within [eps] of a position before it in [l]. *)
Definition separated (D : list (list Q)) (eps : Q) (l : list nat) : Prop :=
  forall i j a b row d,
    i < j -> l !! i = Some a -> l !! j = Some b ->
    D !! a = Some row -> row !! b = Some d -> Qltb d eps = false.


(** What holds of the object as long as every pick came from the pool and
    no reset has happened: the selected positions and everything within
    [eps] of one are cleared, and the selection is separated. *)
Record picked_from_pool (D : list (list Q)) (eps : Q) (o : EpsilonClearing) : Prop := {
  pool_consistent : consistent D eps o;
  pool_marked : forall a, a ∈ self_S o -> self_C o !! a = Some true;
  pool_cleared : forall a row j d,
    a ∈ self_S o -> D !! a = Some row -> row !! j = Some d ->
    Qltb d eps = true -> j < length D -> self_C o !! j = Some true;
  pool_nodup : NoDup (self_S o);
  pool_separated : separated D eps (self_S o);
  pool_range : Forall (fun k => k < length D) (self_S o)
}.


End Clearing.

(** ** pymoo/model/algorithm.py *)

Module Driver.

(** The collaborators the driver consumes as black boxes: their types, and
    what the driver reads from them. *)
Class Collaborators : Type := {
  Problem : Type;
  n_obj : Problem -> nat;                 (* [problem.n_obj] *)
  Evaluator : Type;
  Evaluator_new : Evaluator;              (* [Evaluator()] *)
  Termination : Type;
  Callback : Type;
  DisplayFn : Type;                       (* a [func_display_attrs] *)
  ParetoFront : Type;
  Strategy : Type                         (* attributes of the concrete algorithm *)
}.

(** Either one value or a batch: the single-objective branch of [solve]
    yields one individual and its attributes, the multi-objective branch a
    population and the columns of its attributes. *)
Inductive one_or_many (A : Type) : Type :=
  | One (a : A)
  | Many (l : list A).
Arguments One {A} a.
Arguments Many {A} l.

Section Definitions.
Context `{Collaborators}.

(** The attributes of an [Algorithm] object.  [None] is Python's [None] (or
    an attribute not set yet: [n_gen] and [pop] are first set by [_solve]);
    [verbose] and [save_history] are only ever tested for truth.  The
    history holds deep copies of the object itself. *)
#[warnings="-register-all"]
Inductive Algorithm : Type := Build_Algorithm {
  evaluator : option Evaluator;
  problem : option Problem;
  termination : option Termination;
  pf : option ParetoFront;
  opt : option Population;
  seed : option Z;
  history : option (list Algorithm);
  verbose : bool;
  func_display_attrs : option DisplayFn;
  callback : option Callback;
  save_history : bool;
  n_gen : option nat;
  pop : option Population;
  strategy : Strategy
}.

(** [Algorithm.__init__] *)
Definition init (st : Strategy) : Algorithm :=
  Build_Algorithm None None None None None None None false None None false
    None None st.

Definition set_evaluator v (a : Algorithm) :=
  let '(Build_Algorithm _ p t f o s h vb fd cb sh g pp st) := a in
  Build_Algorithm v p t f o s h vb fd cb sh g pp st.
Definition set_problem v (a : Algorithm) :=
  let '(Build_Algorithm e _ t f o s h vb fd cb sh g pp st) := a in
  Build_Algorithm e v t f o s h vb fd cb sh g pp st.
Definition set_termination v (a : Algorithm) :=
  let '(Build_Algorithm e p _ f o s h vb fd cb sh g pp st) := a in
  Build_Algorithm e p v f o s h vb fd cb sh g pp st.
Definition set_pf v (a : Algorithm) :=
  let '(Build_Algorithm e p t _ o s h vb fd cb sh g pp st) := a in
  Build_Algorithm e p t v o s h vb fd cb sh g pp st.
Definition set_seed v (a : Algorithm) :=
  let '(Build_Algorithm e p t f o _ h vb fd cb sh g pp st) := a in
  Build_Algorithm e p t f o v h vb fd cb sh g pp st.
Definition set_history v (a : Algorithm) :=
  let '(Build_Algorithm e p t f o s _ vb fd cb sh g pp st) := a in
  Build_Algorithm e p t f o s v vb fd cb sh g pp st.
Definition set_verbose v (a : Algorithm) :=
  let '(Build_Algorithm e p t f o s h _ fd cb sh g pp st) := a in
  Build_Algorithm e p t f o s h v fd cb sh g pp st.
Definition set_callback v (a : Algorithm) :=
  let '(Build_Algorithm e p t f o s h vb fd _ sh g pp st) := a in
  Build_Algorithm e p t f o s h vb fd v sh g pp st.
Definition set_save_history v (a : Algorithm) :=
  let '(Build_Algorithm e p t f o s h vb fd cb _ g pp st) := a in
  Build_Algorithm e p t f o s h vb fd cb v g pp st.
Definition set_n_gen v (a : Algorithm) :=
  let '(Build_Algorithm e p t f o s h vb fd cb sh _ pp st) := a in
  Build_Algorithm e p t f o s h vb fd cb sh v pp st.
Definition set_pop v (a : Algorithm) :=
  let '(Build_Algorithm e p t f o s h vb fd cb sh g _ st) := a in
  Build_Algorithm e p t f o s h vb fd cb sh g v st.

(** What a display function returns: triples (name, [str(val)], width). *)
Definition disp : Type := list (string * string * nat).

(** The overridable methods of the class and the behaviour of the
    collaborators.  Each receives the live algorithm object and may change
    it, raise, or not return. *)
Class Hooks : Type := {
  _initialize : M Algorithm Population;
  _next : M Algorithm Population;
  _finalize : M Algorithm unit;
  do_continue : Termination -> M Algorithm bool;
  call_callback : Callback -> M Algorithm unit;
  call_display_attrs : DisplayFn -> M Algorithm (option disp);
  (* [NonDominatedSorting().do(F, only_non_dominated_front=True)] *)
  nds_do : list (list Q) -> outcome (list nat);
  (* the value [np.random.randint(0, 10000000)] draws in this run *)
  randint : Z;
  (* [copy.deepcopy(self)]: the exception it raises on this object, if the
     object holds something that cannot be copied (a lock, an open file);
     [None]: the copy succeeds, and is the value of the object *)
  deepcopy_raises : Algorithm -> option exn
}.

(** [Algorithm._finalize] as the class defines it: [pass]. *)
Definition _finalize_default : M Algorithm unit := ret tt.

(** What a run does that is visible from outside the object, in order. *)
Inductive Event : Type :=
  | EvSeed (s : Z)                        (* [np.random.seed(s)] *)
  | EvInitialize
  | EvNext
  | EvFinalize
  | EvDoContinue (answer : option bool)   (* [None]: it did not return *)
  | EvCallback
  | EvDisplayAttrs
  | EvPrint (line : string).

Record World : Type := { alg : Algorithm; trace : list Event }.

Definition log (ev : Event) : M World unit :=
  modify (fun w => {| alg := alg w; trace := trace w ++ [ev] |}).

(** Read an attribute of [self]. *)
Definition self {A} (f : Algorithm -> A) : M World A :=
  gets (fun w => f (alg w)).

(** Read an attribute of [self] and use it: AttributeError on [None]. *)
Definition deref {A} (f : Algorithm -> option A) : M World A :=
  v <- self f ;;
  match v with
  | Some x => ret x
  | None => raise AttributeError
  end.

(** Assign an attribute of [self]. *)
Definition setattr (f : Algorithm -> Algorithm) : M World unit :=
  modify (fun w => {| alg := f (alg w); trace := trace w |}).

(** Call a hook on the live object and record the call. *)
Definition invoke {A} (ev : outcome A -> Event) (h : M Algorithm A) : M World A :=
  fun w =>
    let '(r, a') := h (alg w) in
    (r, {| alg := a'; trace := trace w ++ [ev r] |}).

Context `{Hooks}.

Definition initialize : M World Population := invoke (fun _ => EvInitialize) _initialize.
Definition next : M World Population := invoke (fun _ => EvNext) _next.
Definition finalize : M World unit := invoke (fun _ => EvFinalize) _finalize.

Definition answer_of (r : outcome bool) : option bool :=
  match r with Ok b => Some b | _ => None end.

(** [s.ljust(width)] *)
Definition ljust (s : string) (width : nat) : string :=
  (s ++ string_of_list_ascii (repeat " "%char (width - String.length s)))%string.

(** The columns joined by [ | ]: what [regex.format] produces from them. *)
Definition join_bar (cols : list string) : string :=
  String.concat " | " cols.

Definition banner : string :=
  string_of_list_ascii (repeat "="%char 70).

(** [_display(disp, header)] *)
Definition _display (d : disp) (header : bool) : M World unit :=
  (if header then
     log (EvPrint banner) ;;;
     log (EvPrint (join_bar (map (fun '(name, _, width) => ljust name width) d))) ;;;
     log (EvPrint banner)
   else ret tt) ;;;
  log (EvPrint (join_bar (map (fun '(_, val, width) => ljust val width) d))).

(** [copy.deepcopy(self)] *)
Definition deepcopy : M World Algorithm :=
  a <- self id ;;
  match deepcopy_raises a with
  | Some e => raise e
  | None => ret a
  end.

(** [_each_iteration(self, first)].  Nothing catches an exception of the
    deep copy: the history and the callback then stay [None]. *)
Definition _each_iteration (first : bool) : M World unit :=
  v <- self verbose ;;
  fd <- self func_display_attrs ;;
  match v, fd with
  | true, Some f =>
      d <- invoke (fun _ => EvDisplayAttrs) (call_display_attrs f) ;;
      match d with
      | Some d => _display d first
      | None => ret tt
      end
  | _, _ => ret tt
  end ;;;
  cb <- self callback ;;
  match cb with
  | Some c => invoke (fun _ => EvCallback) (call_callback c)
  | None => ret tt
  end ;;;
  sh <- self save_history ;;
  if sh then
    hist <- self history ;;
    _callback <- self callback ;;
    setattr (set_history None) ;;;
    setattr (set_callback None) ;;;
    obj <- deepcopy ;;
    setattr (set_history hist) ;;;
    setattr (set_callback _callback) ;;;
    match hist with
    | Some h => setattr (set_history (Some (h ++ [obj])))
    | None => raise AttributeError
    end
  else ret tt.

(** The [while] loop of [_solve]; [fuel] bounds the number of times its
    body runs. *)
Fixpoint solve_loop (fuel : nat) : M World unit :=
  t <- deref termination ;;
  continue <- invoke (fun r => EvDoContinue (answer_of r)) (do_continue t) ;;
  if continue : bool then
    match fuel with
    | 0 => out_of_fuel
    | S fuel' =>
        g <- deref n_gen ;;
        setattr (set_n_gen (Some (g + 1))) ;;;
        p <- next ;;
        setattr (set_pop (Some p)) ;;;
        _each_iteration false ;;;
        solve_loop fuel'
    end
  else ret tt.

Definition no_termination_msg : string :=
  "No termination criterion defined and algorithm has no default termination implemented!".

(** [_solve(problem)].  [return self.pop] is modelled with [deref]: the
    attribute holds what [_initialize] and [_next] returned, so it is unset
    at the return only if a hook has unset it; the model then raises
    AttributeError at the return, where the code returns [None] and raises
    AttributeError one step later, at [pop.copy()], unless the object
    maintains [opt]. *)
Definition _solve (fuel : nat) (problem_ : Problem) : M World Population :=
  t <- self termination ;;
  match t with
  | None => raise (Exception no_termination_msg)
  | Some _ =>
      setattr (set_n_gen (Some 1)) ;;;
      p <- initialize ;;
      setattr (set_pop (Some p)) ;;;
      _each_iteration true ;;;
      solve_loop fuel ;;;
      finalize ;;;
      deref pop
  end.

(** Modelled from the spec: the class [Result] is not among the source
    files.  It holds the optimal subset's [X], [F], [CV], [G] (absent
    until assigned), the final population, the problem, the Pareto front,
    the history, and a flag that no feasible solution was found: the
    constructor takes the optimum, that flag and a message. *)
Record Result : Type := {
  res_opt : option (one_or_many Individual);
  res_no_solution : bool;
  res_message : string;
  res_problem : option Problem;
  res_pf : option ParetoFront;
  res_pop : option Population;
  res_X : option (one_or_many (list Q));
  res_F : option (one_or_many (list Q));
  res_CV : option (one_or_many Q);
  res_G : option (one_or_many (list Q));
  res_history : option (list Algorithm)
}.

(** The local variables [X, F, CV, G] of [solve]. *)
Definition attrs : Type :=
  (one_or_many (list Q) * one_or_many (list Q) * one_or_many Q * one_or_many (list Q))%type.

Definition attrs_of_pop (p : Population) : attrs :=
  (Many (map X p), Many (map F p), Many (map CV p), Many (map G p)).
Definition attrs_of_ind (i : Individual) : attrs :=
  (One (X i), One (F i), One (CV i), One (G i)).

(** A seed [np.random.seed] accepts: between 0 and 2**32 - 1. *)
Definition valid_seed (s : Z) : bool := ((0 <=? s) && (s <? 2 ^ 32))%Z.

(** [np.random.seed(s)]: ValueError on a seed out of range. *)
Definition np_random_seed (s : Z) : M World unit :=
  if valid_seed s then log (EvSeed s) else raise ValueError.

(** Lines 95-122 of [solve]: the seed and the attributes of the run.
    [FunctionLoader.get_instance()] on line 95 is the accessor of a
    process-wide singleton that is not among the source files; the warning
    it may print when the singleton is first created is not output of the
    driver and is not part of the trace. *)
Definition solve_setup (problem_ : Problem) (termination_ : option Termination)
    (seed_ : option Z) (verbose_ : bool) (callback_ : option Callback)
    (save_history_ : bool) (pf_ : ParetoFront) (evaluator_ : option Evaluator)
    : M World unit :=
  let seed_ := match seed_ with Some s => s | None => randint end in
  np_random_seed seed_ ;;;
  setattr (set_seed (Some seed_)) ;;;
  setattr (set_history (Some [])) ;;;
  setattr (set_evaluator evaluator_) ;;;
  e <- self evaluator ;;
  match e with
  | None => setattr (set_evaluator (Some Evaluator_new))
  | Some _ => ret tt
  end ;;;
  setattr (set_problem (Some problem_)) ;;;
  match termination_ with
  | Some t => setattr (set_termination (Some t))
  | None => ret tt
  end ;;;
  setattr (set_pf (Some pf_)) ;;;
  setattr (set_verbose verbose_) ;;;
  setattr (set_callback callback_) ;;;
  setattr (set_save_history save_history_).

(** Lines 149-156 of [solve]: [Result(opt, opt is None, "")], then the
    attributes assigned to it; [X, F, CV, G] only if [opt] is not [None]. *)
Definition make_result (problem_ : Problem) (pf_ : ParetoFront)
    (pop_ : Population) (opt_ : option (one_or_many Individual))
    (xfcvg : option attrs) (hist : option (list Algorithm)) : Result :=
  let assigned {A} (f : attrs -> A) : option A :=
    match opt_, xfcvg with
    | Some _, Some v => Some (f v)
    | _, _ => None
    end in
  {| res_opt := opt_;
     res_no_solution := match opt_ with None => true | Some _ => false end;
     res_message := "";
     res_problem := Some problem_;
     res_pf := Some pf_;
     res_pop := Some pop_;
     res_X := assigned (fun '(x, _, _, _) => x);
     res_F := assigned (fun '(_, f, _, _) => f);
     res_CV := assigned (fun '(_, _, c, _) => c);
     res_G := assigned (fun '(_, _, _, g) => g);
     res_history := hist |}.

(** Lines 127-158 of [solve]: the optimum is taken from the population
    [_solve] returned, and the result is put together. *)
Definition solve_extract (problem_ : Problem) (pf_ : ParetoFront)
    (pop_ : Population) : M World Result :=
  o <- self opt ;;
  let opt0 := match o with None => pop_ | Some o => o end in
  mask <- lift (feasible_column opt0) ;;
  let opt1 := compress mask opt0 in
  r <-
    (if 0 <? length opt1 then
       if 1 <? n_obj problem_ then
         I <- lift (nds_do (map F opt1)) ;;
         front <- lift (take opt1 I) ;;
         ret (Some (Many front), Some (attrs_of_pop front))
       else
         i <- lift (np_argmin (concat (map F opt1))) ;;
         best <- lift (getitem opt1 i) ;;
         ret (Some (One best), Some (attrs_of_ind best))
     else ret (None, None)) ;;
  let '(opt2, xfcvg) := r in
  hist <- self history ;;
  ret (make_result problem_ pf_ pop_ opt2 xfcvg hist).

(** [solve(problem, termination, seed, verbose, callback, save_history, pf,
    evaluator)] *)
Definition solve (fuel : nat) (problem_ : Problem) (termination_ : option Termination)
    (seed_ : option Z) (verbose_ : bool) (callback_ : option Callback)
    (save_history_ : bool) (pf_ : ParetoFront) (evaluator_ : option Evaluator)
    : M World Result :=
  solve_setup problem_ termination_ seed_ verbose_ callback_ save_history_
    pf_ evaluator_ ;;;
  pop_ <- _solve fuel problem_ ;;
  solve_extract problem_ pf_ pop_.

(** *** Notions used to state the properties of a run *)

(** The run up to the point where [_solve] has returned the final
    population. *)
Definition run_generations (fuel : nat) (problem_ : Problem)
    (termination_ : option Termination) (seed_ : option Z) (verbose_ : bool)
    (callback_ : option Callback) (save_history_ : bool) (pf_ : ParetoFront)
    (evaluator_ : option Evaluator) : M World Population :=
  solve_setup problem_ termination_ seed_ verbose_ callback_ save_history_
    pf_ evaluator_ ;;;
  _solve fuel problem_.

(** The candidates for the optimum: [self.opt] if the algorithm keeps one,
    else the final population, restricted to the feasible individuals. *)
Definition optimal_pool (a : Algorithm) (pop_ : Population) : Population :=
  filter (fun i => feasible i = true)
    (match opt a with Some o => o | None => pop_ end).

(** The candidates before the feasible ones are picked. *)
Definition optimal_candidates (a : Algorithm) (pop_ : Population) : Population :=
  match opt a with Some o => o | None => pop_ end.

(** A hook leaves the driver's own bookkeeping alone. *)
Definition keeps_bookkeeping {A} (h : M Algorithm A) : Prop :=
  forall a,
    history (snd (h a)) = history a /\
    save_history (snd (h a)) = save_history a /\
    n_gen (snd (h a)) = n_gen a.

Definition hooks_keep_bookkeeping : Prop :=
  keeps_bookkeeping _initialize /\
  keeps_bookkeeping _next /\
  keeps_bookkeeping _finalize /\
  (forall t, keeps_bookkeeping (do_continue t)) /\
  (forall c, keeps_bookkeeping (call_callback c)) /\
  (forall f, keeps_bookkeeping (call_display_attrs f)).

(** The events of the generation loop itself, as opposed to those of the
    bookkeeping pass (display, callback) and of the setup. *)
Definition is_control (ev : Event) : bool :=
  match ev with
  | EvInitialize | EvNext | EvFinalize | EvDoContinue _ => true
  | _ => false
  end.

Definition control_events (t : list Event) : list Event :=
  filter (fun ev => is_control ev = true) t.

(** From [w] to [w'] the bookkeeping attributes have not changed and no
    control event has happened. *)
Definition same_bookkeeping (w w' : World) : Prop :=
  history (alg w') = history (alg w) /\
  save_history (alg w') = save_history (alg w) /\
  n_gen (alg w') = n_gen (alg w) /\
  exists t, trace w' = trace w ++ t /\ control_events t = [].

(** The control events of a run in which the loop body ran [k] times. *)
Definition control_trace (k : nat) : list Event :=
  EvInitialize ::
  concat (replicate k [EvDoContinue (Some true); EvNext]) ++
  [EvDoContinue (Some false); EvFinalize].

(** *** Notions used to state further properties of a run *)

(** A hook leaves the attribute [f] of the object as it is. *)
Definition keeps_attr {A B} (f : Algorithm -> B) (h : M Algorithm A) : Prop :=
  forall a, f (snd (h a)) = f a.

Definition hooks_keep {B} (f : Algorithm -> B) : Prop :=
  keeps_attr f _initialize /\
  keeps_attr f _next /\
  keeps_attr f _finalize /\
  (forall t, keeps_attr f (do_continue t)) /\
  (forall c, keeps_attr f (call_callback c)) /\
  (forall d, keeps_attr f (call_display_attrs d)).

(** A snapshot that carries neither a history nor a callback. *)
Definition nulled_snapshot (s : Algorithm) : Prop :=
  history s = None /\ callback s = None.

(** The object's history is a list, of such snapshots only. *)
Definition history_of_nulled (w : World) : Prop :=
  exists h, history (alg w) = Some h /\ Forall nulled_snapshot h.

(** The events of the display: the call of the display function and the
    printed lines. *)
Definition is_output (ev : Event) : bool :=
  match ev with
  | EvDisplayAttrs | EvPrint _ => true
  | _ => false
  end.

(** The object is not verbose, and since the trace [t0] no display event
    has happened. *)
Definition quiet_since (t0 : list Event) (w : World) : Prop :=
  verbose (alg w) = false /\
  exists t, trace w = t0 ++ t /\ Forall (fun ev => is_output ev = false) t.

(** Every name and every value of [d] fits the width of its column. *)
Definition fits_columns (d : disp) : Prop :=
  Forall (fun '(name, val, width) =>
            String.length name <= width /\ String.length val <= width) d.

(** The width of a row of [d]: the columns and the separators between
    them. *)
Definition row_width (d : disp) : nat :=
  list_sum (map (fun '(_, _, width) => width) d) + 3 * (length d - 1).

End Definitions.

End Driver.

(** ** Dominance, and what a sorting oracle has to return *)

(** Modelled from the spec: the sorting code is not among the source files.
    The glossary's non-dominated front is the set of objective vectors that
    no member dominates, with Pareto dominance for minimisation: [a] is
    nowhere worse than [b] and somewhere strictly better. *)
Definition dominates (a b : list Q) : bool :=
  forallb (fun '(x, y) => negb (Qltb y x)) (zip a b) &&
  existsb (fun '(x, y) => Qltb x y) (zip a b).

(** Row [i] of [Fs] exists and no row of [Fs] dominates it. *)
Definition non_dominated_in (Fs : list (list Q)) (i : nat) : bool :=
  match Fs !! i with
  | Some Fi => forallb (fun Fj => negb (dominates Fj Fi)) Fs
  | None => false
  end.

(** [I] is the first non-dominated front of [Fs]: its members are positions
    of non-dominated rows, and every such position is a member. *)
Definition is_first_front (Fs : list (list Q)) (I : list nat) : bool :=
  forallb (non_dominated_in Fs) I &&
  forallb (fun i => implb (non_dominated_in Fs i) (bool_decide (i ∈ I)))
    (seq 0 (length Fs)).

(** ** A concrete algorithm, used to run the definitions *)

Module Example.
Import Driver.

(** Two points at mutual distance 0.5. *)
Definition two_points : list (list Q) := [[0; 1 # 2]; [1 # 2; 0]]%Q.

(** Two individuals, the first with the smaller first objective. *)
Definition two_pop : Population :=
  [ {| X := []; F := [0]; CV := 0; G := []; feasible := true |};
    {| X := []; F := [1]; CV := 0; G := []; feasible := true |} ]%Q.

(** The scoring function [lambda pop: 0]: always the first candidate. *)
Definition pick_first (sub : Population) : outcome nat := Ok 0.

(** A problem is its number of objectives; a termination criterion is a
    bound on the generation counter; the strategy counts its own calls. *)
#[export] Instance collaborators : Collaborators := {|
  Problem := nat;
  n_obj := fun p => p;
  Evaluator := unit;
  Evaluator_new := tt;
  Termination := nat;
  Callback := unit;
  DisplayFn := unit;
  ParetoFront := unit;
  Strategy := nat
|}.

Definition ind (f : list Q) (ok : bool) : Individual :=
  {| X := f; F := f; CV := if ok then 0 else 1; G := []; feasible := ok |}.

(** Two objectives: the second and the fourth individual are infeasible. *)
Definition pop2 : Population :=
  [ind [1; 4] true; ind [0; 0] false; ind [2; 2] true; ind [5; 5] false;
   ind [3; 3] true; ind [4; 1] true]%Q.

(** One objective, with the least feasible value twice. *)
Definition pop1 : Population :=
  [ind [3] true; ind [0] false; ind [1] true; ind [2] true; ind [1] true]%Q.


Definition naive_front (Fs : list (list Q)) : list nat :=
  filter (fun i => non_dominated_in Fs i = true) (seq 0 (length Fs)).

Definition bump (a : Algorithm) : Algorithm :=
  let '(Build_Algorithm e p t f o s h vb fd cb sh g pp st) := a in
  Build_Algorithm e p t f o s h vb fd cb sh g pp (S st).

(** The population does not change from one generation to the next. *)
Definition hooks_of (p0 : Population) : Hooks := {|
  _initialize := fun a => (Ok p0, bump a);
  _next := fun a => (Ok p0, bump a);
  _finalize := _finalize_default;
  do_continue := fun t a =>
    (Ok (match n_gen a with Some g => g <? t | None => false end), a);
  call_callback := fun _ a => (Ok tt, a);
  call_display_attrs := fun _ a =>
    (Ok (Some [("n_gen", "?", 5)]%string), a);
  nds_do := fun Fs => Ok (naive_front Fs);
  randint := 42%Z;
  deepcopy_raises := fun _ => None
|}.

(** The same hooks on an object that cannot be copied. *)
Definition hooks_uncopyable (p0 : Population) : Hooks := {|
  _initialize := fun a => (Ok p0, bump a);
  _next := fun a => (Ok p0, bump a);
  _finalize := _finalize_default;
  do_continue := fun t a =>
    (Ok (match n_gen a with Some g => g <? t | None => false end), a);
  call_callback := fun _ a => (Ok tt, a);
  call_display_attrs := fun _ a =>
    (Ok (Some [("n_gen", "?", 5)]%string), a);
  nds_do := fun Fs => Ok (naive_front Fs);
  randint := 42%Z;
  deepcopy_raises := fun _ => Some (Foreign 0)
|}.

Definition w0 : World := {| alg := init 0; trace := [] |}.

(** A run of [solve] on a fresh object: population [p0], [n] objectives,
    at most [max_gen] generations, seed 7, no display and no callback. *)
Definition run (p0 : Population) (n max_gen : nat) (save : bool)
    : outcome Result * World :=
  solve (H0 := hooks_of p0) 10 n (Some max_gen) (Some 7%Z) false None save tt
    None w0.

(** The same run up to the return of [_solve]. *)
Definition generations (p0 : Population) (n max_gen : nat) (save : bool)
    : outcome Population * World :=
  run_generations (H0 := hooks_of p0) 10 n (Some max_gen) (Some 7%Z) false
    None save tt None w0.

End Example.

(* ===================================================================== *)
(** * Part II: properties                                                  *)
(* ===================================================================== *)

(** ** numpy operations *)

Lemma map_is_fmap {A B} (f : A -> B) (l : list A) : map f l = f <$> l.
Proof. reflexivity. Qed.

Lemma Qltb_lt (a b : Q) : Qltb a b = true <-> (a < b)%Q.
Proof.
  unfold Qltb. rewrite Qlt_alt.
  destruct (a ?= b)%Q; split; congruence.
Qed.

Lemma Qltb_ge (a b : Q) : Qltb a b = false <-> (b <= a)%Q.
Proof.
  split.
  - intros Hf. apply Qnot_lt_le. intros Hlt%Qltb_lt. congruence.
  - intros Hle. destruct (Qltb a b) eqn:E; [|done].
    apply Qltb_lt in E. by apply Qle_not_lt in Hle.
Qed.

Lemma elem_of_where_from (mask : list bool) (i j : nat) :
  j ∈ where_from i mask <-> exists k, j = i + k /\ mask !! k = Some true.
Proof.
  revert i. induction mask as [|b mask IH]; intros i; simpl.
  - split; [intros Hj; by apply elem_of_nil in Hj | intros (k & _ & Hk); by rewrite lookup_nil in Hk].
  - assert (j ∈ where_from (S i) mask <->
            exists k, j = i + S k /\ mask !! k = Some true) as IH'.
    { rewrite IH. by setoid_rewrite Nat.add_succ_r. }
    destruct b.
    + rewrite elem_of_cons, IH'. split.
      * intros [-> | (k & -> & Hk)]; [exists 0 | exists (S k)]; split; auto; lia.
      * intros ([|k] & -> & Hk); [left; lia | right; eauto].
    + rewrite IH'. split.
      * intros (k & -> & Hk). exists (S k); auto.
      * intros ([|k] & -> & Hk); [done | eauto].
Qed.

(** [np.where(~c)[0]] lists exactly the positions at which [c] is false. *)
Lemma elem_of_where_not (c : list bool) (j : nat) :
  j ∈ np_where (map negb c) <-> c !! j = Some false.
Proof.
  unfold np_where. rewrite elem_of_where_from, map_is_fmap. split.
  - intros (k & -> & Hk). simpl. rewrite list_lookup_fmap in Hk.
    destruct (c !! k) as [[]|]; simpl in Hk; congruence.
  - intros Hj. exists j. split; [done|].
    by rewrite list_lookup_fmap, Hj.
Qed.

Lemma length_mark_all (c : list bool) (I : list nat) :
  length (foldl (fun c i => <[i := true]> c) c I) = length c.
Proof.
  revert c. induction I as [|i I IH]; intros c; simpl; [done|].
  by rewrite IH, length_insert.
Qed.

Lemma lookup_mark_all (c : list bool) (I : list nat) (j : nat) :
  foldl (fun c i => <[i := true]> c) c I !! j =
  if decide (j ∈ I /\ j < length c) then Some true else c !! j.
Proof.
  revert c. induction I as [|i I IH]; intros c; cbn [foldl].
  - destruct (decide _) as [[Hd _]|]; [|done]. by apply elem_of_nil in Hd.
  - rewrite IH, length_insert.
    destruct (decide (j ∈ I /\ j < length c)) as [[Hin Hlt]|Hn].
    + rewrite decide_True by (rewrite elem_of_cons; auto). done.
    + destruct (decide (i = j)) as [->|Hne].
      * destruct (decide (j < length c)) as [Hlt|Hge].
        -- rewrite list_lookup_insert_eq by done.
           rewrite decide_True by (rewrite elem_of_cons; auto). done.
        -- rewrite list_insert_ge by lia.
           rewrite decide_False by (intros [_ ?]; done). done.
      * rewrite list_lookup_insert_ne by done.
        rewrite decide_False; [done|].
        rewrite elem_of_cons. intros [[?|?] ?]; [congruence | tauto].
Qed.

Lemma take_Some {A} (a : list A) (I : list nat) (xs : list A) :
  take a I = Ok xs <-> Forall2 (fun i x => a !! i = Some x) I xs.
Proof.
  revert xs. induction I as [|i I IH]; intros xs; simpl.
  - split; [intros [= <-]; constructor | by intros ->%Forall2_nil_inv_l].
  - destruct (a !! i) as [x|] eqn:Hi.
    + destruct (take a I) as [ys| |] eqn:Ht.
      * split.
        -- intros [= <-]. constructor; [done | by apply IH].
        -- intros (x' & ys' & Hx & Hys & ->)%Forall2_cons_inv_l.
           apply IH in Hys. congruence.
      * split; [done|].
        intros (x' & ys' & Hx & Hys & ->)%Forall2_cons_inv_l.
        apply IH in Hys. done.
      * split; [done|].
        intros (x' & ys' & Hx & Hys & ->)%Forall2_cons_inv_l.
        apply IH in Hys. done.
    + split; [done|].
      intros (x' & ys' & Hx & Hys & ->)%Forall2_cons_inv_l. congruence.
Qed.

Lemma take_nil_not_fuel {A} (a : list A) (I : list nat) : take a I <> OutOfFuel.
Proof.
  induction I as [|i I IH]; simpl; [done|].
  destruct (a !! i); [|done]. destruct (take a I); done.
Qed.

Lemma compress_filter (p : Population) :
  compress (map feasible p) p = filter (fun i => feasible i = true) p.
Proof.
  induction p as [|x p IH]; [done|].
  rewrite filter_cons. cbn [map compress]. rewrite IH.
  destruct (feasible x); [by rewrite decide_True | by rewrite decide_False].
Qed.


Lemma argmin_scan_spec (a : list Q) (bi : nat) (b : Q) (i : nat) :
  bi < i ->
  let m := argmin_scan bi b i a in
  (m = bi /\ forall j w, a !! j = Some w -> (b <= w)%Q) \/
  (exists j v, m = i + j /\ a !! j = Some v /\ (v < b)%Q /\
     forall j' w, a !! j' = Some w -> (v <= w)%Q /\ (j' < j -> (v < w)%Q)).
Proof.
  revert bi b i. induction a as [|x a IH]; intros bi b i Hlt; simpl.
  - left. split; [done|]. intros j w Hj. by rewrite lookup_nil in Hj.
  - destruct (Qltb x b) eqn:Hxb.
    + apply Qltb_lt in Hxb.
      destruct (IH i x (S i) ltac:(lia)) as [[-> Hall] | (j & v & -> & Hj & Hv & Hall)].
      * right. exists 0, x. split; [lia|]. split; [done|]. split; [done|].
        intros [|j'] w Hw; simpl in Hw.
        -- injection Hw as <-. split; [apply Qle_refl | lia].
        -- split; [by eapply Hall | lia].
      * right. exists (S j), v. split; [lia|]. split; [done|].
        split; [by eapply Qlt_trans|].
        intros [|j'] w Hw; simpl in Hw.
        -- injection Hw as <-. split; [by apply Qlt_le_weak | done].
        -- destruct (Hall j' w Hw) as [Hle Hfirst].
           split; [done|]. intros ?. apply Hfirst. lia.
    + apply Qltb_ge in Hxb.
      destruct (IH bi b (S i) ltac:(lia)) as [[-> Hall] | (j & v & -> & Hj & Hv & Hall)].
      * left. split; [done|]. intros [|j] w Hw; simpl in Hw.
        -- by injection Hw as <-.
        -- by eapply Hall.
      * right. exists (S j), v. split; [lia|]. split; [done|]. split; [done|].
        intros [|j'] w Hw; simpl in Hw.
        -- injection Hw as <-.
           assert (v < x)%Q by (by eapply Qlt_le_trans).
           split; [by apply Qlt_le_weak | done].
        -- destruct (Hall j' w Hw) as [Hle Hfirst].
           split; [done|]. intros ?. apply Hfirst. lia.
Qed.

(** [argmin] returns the first position of a least element. *)
Lemma np_argmin_spec (a : list Q) :
  a <> [] ->
  exists m v,
    np_argmin a = Ok m /\ a !! m = Some v /\
    forall j w, a !! j = Some w -> (v <= w)%Q /\ (j < m -> (v < w)%Q).
Proof.
  destruct a as [|x a]; [done|]. intros _. simpl.
  destruct (argmin_scan_spec a 0 x 1 ltac:(lia)) as [[-> Hall] | (j & v & -> & Hj & Hv & Hall)].
  - exists 0, x. split; [done|]. split; [done|].
    intros [|j] w Hw; simpl in Hw.
    + injection Hw as <-. split; [apply Qle_refl | lia].
    + split; [by eapply Hall | lia].
  - exists (S j), v. split; [done|]. split; [done|].
    intros [|j'] w Hw; simpl in Hw.
    + injection Hw as <-. split; [by apply Qlt_le_weak | done].
    + destruct (Hall j' w Hw) as [Hle Hfirst].
      split; [done|]. intros ?. apply Hfirst. lia.
Qed.

(** The flattened objective matrix of a single-objective population is the
    column of its objective values. *)
Lemma lookup_concat_singletons (p : Population) (j : nat) :
  Forall (fun i => length (F i) = 1) p ->
  concat (map F p) !! j = p !! j ≫= fun i => head (F i).
Proof.
  revert j. induction p as [|x p IH]; intros j Hall; [done|].
  apply Forall_cons in Hall as [Hx Hall]. simpl.
  destruct (F x) as [|f [|]] eqn:HF; try done. simpl.
  destruct j as [|j]; simpl; [by rewrite HF|]. by apply IH.
Qed.

(** ** The monad *)

Lemma bind_Ok {St A B} (m : M St A) (k : A -> M St B) (s s' : St) (b : B) :
  bind m k s = (Ok b, s') <->
  exists a s1, m s = (Ok a, s1) /\ k a s1 = (Ok b, s').
Proof.
  unfold bind. destruct (m s) as [[a| |] s1]; split.
  - eauto.
  - by intros (a' & s1' & [= <- <-] & Hk).
  - done.
  - by intros (a' & s1' & [=] & _).
  - done.
  - by intros (a' & s1' & [=] & _).
Qed.

Lemma bind_ext {St A B} (m : M St A) (k k' : A -> M St B) (s : St) :
  (forall a s1, m s = (Ok a, s1) -> k a s1 = k' a s1) ->
  bind m k s = bind m k' s.
Proof. unfold bind. destruct (m s) as [[a| |] s1]; auto. Qed.

Lemma bind_cong_l {St A B} (m m' : M St A) (k : A -> M St B) (s : St) :
  m s = m' s -> bind m k s = bind m' k s.
Proof. unfold bind. intros Heq. by rewrite Heq. Qed.

Lemma bind_not_cut {St A B} (m : M St A) (k : A -> M St B) (s : St) :
  fst (bind m k s) <> OutOfFuel ->
  forall a s1, m s = (Ok a, s1) -> fst (k a s1) <> OutOfFuel.
Proof. unfold bind. intros Hne a s1 Heq. by rewrite Heq in Hne. Qed.

Lemma bind_not_cut_l {St A B} (m : M St A) (k : A -> M St B) (s : St) :
  fst (bind m k s) <> OutOfFuel -> fst (m s) <> OutOfFuel.
Proof. unfold bind. by destruct (m s) as [[a| |] s1]. Qed.

(** ** EpsilonClearing *)

Section ClearingProperties.
Import Clearing.

(** What [select] does, path by path. *)
Lemma select_unfold (k : nat) (o : EpsilonClearing) :
  select k o =
  let o1 := set_S (fun s => s ++ [k]) o in
  if decide (k < length (self_C o)) then
    let o2 := set_C (<[k := true]> (self_C o)) o1 in
    match self_D o !! k with
    | Some row =>
        let mask := map (fun d => Qltb d (self_epsilon o)) row in
        if decide (length mask = length (self_C o))
        then (Ok tt, set_C (zip_with orb (<[k := true]> (self_C o)) mask) o2)
        else (Raise IndexError, o2)
    | None => (Raise IndexError, o2)
    end
  else (Raise IndexError, o1).
Proof.
  unfold select, bind, modify, get, lift, setitem_true, getitem, setmask_true.
  simpl. destruct (decide (k < length (self_C o))); [|done]. simpl.
  destruct (self_D o !! k) as [row|]; [|done]. simpl.
  rewrite length_insert.
  destruct (decide (length (map _ row) = length (self_C o))); done.
Qed.

(** What [reset] does, path by path. *)
Lemma reset_unfold (o : EpsilonClearing) :
  reset o =
  if decide (Forall (fun i => i < self_n o) (self_S o)) then
    (Ok tt, set_C (foldl (fun c i => <[i := true]> c)
                     (np_full_false (self_n o)) (self_S o)) o)
  else (Raise IndexError, set_C (np_full_false (self_n o)) o).
Proof.
  unfold reset, bind, modify, get, gets, lift, setitems_true. simpl.
  unfold np_full_false. rewrite length_replicate.
  destruct (decide (Forall (fun i => i < self_n o) (self_S o))); done.
Qed.

Lemma init_consistent D eps : consistent D eps (init D eps).
Proof.
  split; simpl; try done.
  - unfold np_full_false. by rewrite length_replicate.
  - intros _ k Hk. by apply elem_of_nil in Hk.
Qed.

Lemma select_consistent D eps o k :
  consistent D eps o -> consistent D eps (snd (select k o)).
Proof.
  intros [HD He Hn HC HS]. rewrite select_unfold. cbv zeta.
  assert (forall c, length c = length D ->
            (forall j, self_C o !! j = Some true -> c !! j = Some true) ->
            (k < length D -> c !! k = Some true) ->
            consistent D eps (set_C c (set_S (fun s => s ++ [k]) o))) as Hstep.
  { intros c Hlen Hmono Hk. split; simpl; try done.
    intros Hall j Hj. apply Forall_app in Hall as [Hall Hk'].
    apply elem_of_app in Hj as [Hj | Hj%list_elem_of_singleton].
    - apply Hmono, HS; done.
    - subst j. apply Hk. rewrite Forall_singleton in Hk'. simpl in Hk'. lia. }
  destruct (decide (k < length (self_C o))) as [Hlt|Hge].
  - assert (forall j, self_C o !! j = Some true ->
              <[k := true]> (self_C o) !! j = Some true) as Hins.
    { intros j Hj. destruct (decide (k = j)) as [->|].
      - by rewrite list_lookup_insert_eq.
      - by rewrite list_lookup_insert_ne. }
    assert (consistent D eps
              (set_C (<[k:=true]> (self_C o)) (set_S (fun s => s ++ [k]) o))) as Hmid.
    { apply Hstep; [by rewrite length_insert | done |].
      intros _. by rewrite list_lookup_insert_eq. }
    destruct (self_D o !! k) as [row|]; [|done].
    destruct (decide _) as [Hlen|]; [|done]. simpl.
    assert (forall j, <[k := true]> (self_C o) !! j = Some true ->
              zip_with orb (<[k := true]> (self_C o))
                (map (fun d => Qltb d (self_epsilon o)) row) !! j = Some true) as Hzip.
    { intros j Hj. rewrite lookup_zip_with, Hj. simpl.
      destruct (map _ row !! j) as [b|] eqn:Hb; [done|].
      apply lookup_ge_None in Hb. apply lookup_lt_Some in Hj.
      rewrite length_insert in Hj. lia. }
    apply Hstep.
    + rewrite length_zip_with_l_eq; rewrite length_insert; [done | lia].
    + intros j Hj. by apply Hzip, Hins.
    + intros _. apply Hzip. by rewrite list_lookup_insert_eq.
  - simpl. split; simpl; try done.
    intros Hall. apply Forall_app in Hall as [_ Hk].
    rewrite Forall_singleton in Hk. simpl in Hk. lia.
Qed.

Lemma reset_consistent D eps o :
  consistent D eps o -> consistent D eps (snd (reset o)).
Proof.
  intros [HD He Hn HC HS]. rewrite reset_unfold.
  destruct (decide _) as [Hall|Hnall]; simpl.
  - split; simpl; try done.
    + rewrite length_mark_all. unfold np_full_false.
      by rewrite length_replicate.
    + intros _ k Hk. rewrite lookup_mark_all. unfold np_full_false.
      rewrite length_replicate. rewrite decide_True; [done|].
      split; [done|]. by eapply Forall_forall in Hall.
  - split; simpl; try done.
    unfold np_full_false. by rewrite length_replicate.
Qed.

Lemma run_op_consistent D eps o c :
  consistent D eps o -> consistent D eps (run_op o c).
Proof.
  destruct c; simpl; auto using select_consistent, reset_consistent.
Qed.

Lemma run_ops_consistent D eps cs :
  consistent D eps (run_ops (init D eps) cs).
Proof.
  unfold run_ops. induction cs as [|c cs IH] using rev_ind; simpl.
  - apply init_consistent.
  - rewrite foldl_app. simpl. by apply run_op_consistent.
Qed.

(** C7: from any state of an object over an n x n matrix, and for any
    position [k < n], [select(k)] returns normally; afterwards [k] is the
    last element of [selected()], [C[k]] holds and [k] is not in
    [remaining()], every [j] with [D[k][j] < epsilon] has [C[j]] set and is
    not in [remaining()], and every entry of [C] that was set still is. *)
Theorem select_marks_and_clears (D : list (list Q)) (eps : Q) (cs : list op) (k : nat) :
  Forall (fun row => length row = length D) D ->
  k < length D ->
  let o := run_ops (init D eps) cs in
  exists o' r,
    select k o = (Ok tt, o') /\
    selected o' = (Ok (self_S o ++ [k]), o') /\
    remaining o' = (Ok r, o') /\
    self_C o' !! k = Some true /\
    (k ∉ r) /\
    (forall row j d,
       D !! k = Some row -> row !! j = Some d -> (d < eps)%Q ->
       self_C o' !! j = Some true /\ j ∉ r) /\
    (forall i, self_C o !! i = Some true -> self_C o' !! i = Some true).
Proof.
  intros Hsq Hk o.
  destruct (run_ops_consistent D eps cs) as [HD He Hn HC _]. fold o in HD, He, Hn, HC.
  destruct (D !! k) as [row|] eqn:Hrow;
    [|apply lookup_ge_None in Hrow; lia].
  assert (length row = length D) as Hlen.
  { eapply Forall_forall in Hsq; [done|]. by eapply list_elem_of_lookup_2. }
  set (mask := map (fun d => Qltb d eps) row).
  set (c1 := <[k := true]> (self_C o)).
  exists (set_C (zip_with orb c1 mask) (set_C c1 (set_S (fun s => s ++ [k]) o))),
    (np_where (map negb (zip_with orb c1 mask))).
  assert (forall j, c1 !! j = Some true -> zip_with orb c1 mask !! j = Some true) as Hzip.
  { intros j Hj. rewrite lookup_zip_with, Hj. simpl.
    destruct (mask !! j) as [b|] eqn:Hb; [done|].
    apply lookup_ge_None in Hb. apply lookup_lt_Some in Hj.
    unfold c1, mask in *. rewrite length_insert in Hj.
    rewrite length_map in Hb. lia. }
  assert (c1 !! k = Some true) as Hc1k.
  { unfold c1. rewrite list_lookup_insert_eq; [done | lia]. }
  split; [|split; [done|split; [done|split; [|split; [|split]]]]].
  - rewrite select_unfold. cbv zeta. rewrite HD, He, Hrow.
    rewrite decide_True by lia.
    rewrite decide_True by (rewrite length_map; lia). done.
  - simpl. by apply Hzip.
  - rewrite elem_of_where_not. simpl. rewrite (Hzip k Hc1k). done.
  - intros row' j d [= <-] Hd Hlt. simpl.
    assert (zip_with orb c1 mask !! j = Some true) as Hj.
    { rewrite lookup_zip_with. unfold mask. rewrite map_is_fmap, list_lookup_fmap, Hd.
      simpl. apply Qltb_lt in Hlt. rewrite Hlt.
      destruct (c1 !! j) as [b|] eqn:Hb; simpl.
      - by rewrite orb_true_r.
      - apply lookup_ge_None in Hb. apply lookup_lt_Some in Hd.
        unfold c1 in Hb. rewrite length_insert in Hb. lia. }
    split; [done|]. rewrite elem_of_where_not, Hj. done.
  - intros i Hi. simpl. apply Hzip. unfold c1.
    destruct (decide (k = i)) as [->|].
    + rewrite list_lookup_insert_eq; [done | lia].
    + by rewrite list_lookup_insert_ne.
Qed.

Lemma select_marks_and_clears_witness :
  Forall (fun row => length row = length Example.two_points) Example.two_points /\
  1 < length Example.two_points /\
  exists o' r,
    select 1 (run_ops (init Example.two_points 1) [OpSelect 0; OpReset]) = (Ok tt, o') /\
    selected o' = (Ok [0; 1], o') /\
    remaining o' = (Ok r, o') /\
    self_C o' !! 1 = Some true /\
    1 ∉ r.
Proof.
  assert (Forall (fun row => length row = length Example.two_points) Example.two_points) as Hsq.
  { repeat constructor. }
  assert (1 < length Example.two_points) as Hk by (simpl; lia).
  split; [done|]. split; [done|].
  destruct (select_marks_and_clears Example.two_points 1 [OpSelect 0; OpReset] 1 Hsq Hk)
    as (o' & r & H1 & H2 & H3 & H4 & H5 & _).
  exists o', r. auto.
Defined.

(** C8: from any state of an object in which every selected position is a
    position of the mask, [reset()] returns normally and leaves [S] as it
    was; afterwards [C] holds exactly at the positions that occur in [S],
    and [remaining()] contains everything it contained before. *)
Theorem reset_recomputes_mask (D : list (list Q)) (eps : Q) (cs : list op) :
  let o := run_ops (init D eps) cs in
  Forall (fun k => k < self_n o) (self_S o) ->
  exists o' r r',
    reset o = (Ok tt, o') /\
    self_S o' = self_S o /\
    length (self_C o') = self_n o /\
    (forall i, i < self_n o ->
       self_C o' !! i = Some (bool_decide (i ∈ self_S o))) /\
    remaining o = (Ok r, o) /\
    remaining o' = (Ok r', o') /\
    r ⊆ r'.
Proof.
  intros o Hall.
  destruct (run_ops_consistent D eps cs) as [HD He Hn HC HS]. fold o in HD, He, Hn, HC, HS.
  set (c' := foldl (fun c i => <[i := true]> c) (np_full_false (self_n o)) (self_S o)).
  assert (forall i, i < self_n o -> c' !! i = Some (bool_decide (i ∈ self_S o))) as Hc'.
  { intros i Hi. unfold c'. rewrite lookup_mark_all. unfold np_full_false.
    rewrite length_replicate.
    destruct (decide (i ∈ self_S o)) as [Hin|Hnin].
    - rewrite decide_True by done. by rewrite bool_decide_eq_true_2.
    - rewrite decide_False by tauto. rewrite bool_decide_eq_false_2 by done.
      by apply lookup_replicate_2. }
  exists (set_C c' o), (np_where (map negb (self_C o))), (np_where (map negb c')).
  split; [|split; [done|split; [|split; [done|split; [done|split; [done|]]]]]].
  - rewrite reset_unfold. by rewrite decide_True.
  - simpl. unfold c'. rewrite length_mark_all. unfold np_full_false.
    by rewrite length_replicate.
  - intros i. rewrite !elem_of_where_not. intros Hi.
    assert (i < self_n o) as Hlt by (apply lookup_lt_Some in Hi; lia).
    rewrite Hc' by done. f_equal. apply bool_decide_eq_false_2.
    intros Hin. specialize (HS Hall i Hin). congruence.
Qed.

Lemma reset_recomputes_mask_witness :
  exists o' r r',
    reset (run_ops (init Example.two_points 1) [OpSelect 0]) = (Ok tt, o') /\
    self_S o' = [0] /\
    self_C o' = [true; false] /\
    r = [] /\ r' = [1] /\
    r ⊆ r'.
Proof.
  assert (Forall (fun k => k < 2) [0]) as Hall by (repeat constructor).
  destruct (reset_recomputes_mask Example.two_points 1 [OpSelect 0] Hall)
    as (o' & r & r' & H1 & H2 & H3 & H4 & H5 & H6 & H7).
  exists o', r, r'.
  vm_compute in H1. injection H1 as <-.
  vm_compute in H5. injection H5 as <-.
  vm_compute in H6. injection H6 as <-.
  repeat split; done.
Defined.

(** C9: the constructor starts from an empty selection and an all-false
    mask of length [n = |D|], and keeps the matrix it was given; no
    sequence of operations, from any state, changes the matrix or the
    threshold. *)
Theorem matrix_and_threshold_kept (D : list (list Q)) (eps : Q) :
  self_S (init D eps) = [] /\
  self_n (init D eps) = length D /\
  self_C (init D eps) = replicate (length D) false /\
  self_D (init D eps) = D /\
  self_epsilon (init D eps) = eps /\
  forall (o : EpsilonClearing) (cs : list op),
    self_D (run_ops o cs) = self_D o /\
    self_epsilon (run_ops o cs) = self_epsilon o.
Proof.
  repeat split; try done.
  - revert o. induction cs as [|c cs IH]; intros o; [done|].
    unfold run_ops in *. simpl. rewrite IH.
    destruct c; try done.
    + simpl. rewrite select_unfold. cbv zeta.
      destruct (decide _); [|done]. destruct (self_D o !! k); [|done].
      destruct (decide _); done.
    + simpl. rewrite reset_unfold. destruct (decide _); done.
  - revert o. induction cs as [|c cs IH]; intros o; [done|].
    unfold run_ops in *. simpl. rewrite IH.
    destruct c; try done.
    + simpl. rewrite select_unfold. cbv zeta.
      destruct (decide _); [|done]. destruct (self_D o !! k); [|done].
      destruct (decide _); done.
    + simpl. rewrite reset_unfold. destruct (decide _); done.
Qed.

Lemma reset_twice (o : EpsilonClearing) : reset (snd (reset o)) = reset o.
Proof.
  rewrite (reset_unfold o).
  destruct (decide (Forall (fun i => i < self_n o) (self_S o))) as [Hall|Hnall];
    simpl; rewrite reset_unfold; simpl.
  - by rewrite decide_True.
  - by rewrite decide_False.
Qed.

(** C10: in every state an object can reach, a second [reset()] in a row
    has the outcome of the first and leaves the state the first left. *)
Theorem reset_idempotent (D : list (list Q)) (eps : Q) (cs : list op) :
  let o := run_ops (init D eps) cs in
  reset (snd (reset o)) = (fst (reset o), snd (reset o)).
Proof.
  intros o. rewrite reset_twice. by destruct (reset o).
Qed.

(** When the pool is exhausted before [n_select] positions are selected,
    the loop body does call [reset()], but then picks from the pool it read
    before the reset: the scoring function gets the empty sub-population
    and no position can be read from the empty pool. *)
Lemma select_loop_exhausted_pool fuel pop n_select func_select o o1 :
  length (self_S o) < n_select ->
  remaining o = (Ok [], o) ->
  reset o = (Ok tt, o1) ->
  select_loop (S fuel) pop n_select func_select o =
  (match func_select [] with
   | Ok _ => Raise IndexError
   | Raise e => Raise e
   | OutOfFuel => OutOfFuel
   end, o1).
Proof.
  intros Hlt Hrem Hreset. simpl.
  unfold bind at 1. unfold selected at 1, gets at 1.
  apply Nat.ltb_lt in Hlt. rewrite Hlt.
  unfold bind at 1. rewrite Hrem. simpl.
  unfold bind at 1. rewrite Hreset.
  unfold bind, lift. simpl.
  destruct (func_select []) as [i| |]; done.
Qed.

(** C1: two points at mutual distance 0.5, [epsilon = 1.0], [n_select = 2]
    and a scoring function that takes the first candidate.  Position 0 is
    selected and clears position 1; the second pass finds the pool empty,
    resets (the mask is left true at 0 only), and raises IndexError instead
    of selecting position 1: the call does not return [0, 1]. *)
Theorem select_by_clearing_two_points :
  select_by_clearing Example.two_pop Example.two_points 2 Example.pick_first 1 =
  (Raise IndexError,
   {| self_D := Example.two_points; self_n := 2; self_epsilon := 1;
      self_S := [0]; self_C := [true; false] |}).
Proof.
  unfold select_by_clearing. unfold bind at 1.
  assert (select_loop 2 Example.two_pop 2 Example.pick_first
            (init Example.two_points 1) =
          (Raise IndexError,
           {| self_D := Example.two_points; self_n := 2; self_epsilon := 1;
              self_S := [0]; self_C := [true; false] |})) as ->; [|done].
  vm_compute. reflexivity.
Qed.

(** The same call with the scoring by first objective raises as well: on
    the second pass the column is taken of an array without rows. *)
Example select_by_clearing_two_points_by_objective :
  exists e o,
    select_by_clearing Example.two_pop Example.two_points 2
      func_select_by_objective 1 = (Raise e, o) /\
    self_S o = [0] /\ self_C o = [true; false].
Proof. by eexists _, _. Qed.

Lemma reset_selected o : self_S (snd (reset o)) = self_S o.
Proof. rewrite reset_unfold. by destruct (decide _). Qed.

Lemma select_Ok_selected k o o' :
  select k o = (Ok tt, o') -> self_S o' = self_S o ++ [k].
Proof.
  rewrite select_unfold. cbv zeta.
  destruct (decide _); [|done]. destruct (self_D o !! k); [|done].
  destruct (decide _); [|done]. by intros [= <-].
Qed.

Lemma select_not_fuel k o : fst (select k o) <> OutOfFuel.
Proof.
  rewrite select_unfold. cbv zeta.
  destruct (decide _); [|done]. destruct (self_D o !! k); [|done].
  destruct (decide _); done.
Qed.

(** The fuel [select_by_clearing] gives its loop is enough: the loop is
    never cut off, whatever the scoring function returns or raises. *)
Lemma select_loop_enough_fuel pop n_select func_select fuel o :
  (forall p, func_select p <> OutOfFuel) ->
  n_select <= length (self_S o) + fuel ->
  fst (select_loop fuel pop n_select func_select o) <> OutOfFuel.
Proof.
  intros Hf. revert o. induction fuel as [|fuel IH]; intros o Hle.
  - simpl. unfold bind, selected, gets.
    destruct (length (self_S o) <? n_select) eqn:Hlt; [|done].
    apply Nat.ltb_lt in Hlt. lia.
  - simpl. unfold bind at 1. unfold selected at 1, gets at 1.
    destruct (length (self_S o) <? n_select) eqn:Hlt; [|done].
    unfold bind at 1. unfold remaining at 1, gets at 1.
    unfold bind at 1.
    assert (exists r o1,
              (if length (np_where (map negb (self_C o))) =? 0 then reset else ret tt) o
              = (r, o1) /\ r <> OutOfFuel /\ self_S o1 = self_S o) as (r & o1 & -> & Hr & HS).
    { destruct (_ =? 0).
      - exists (fst (reset o)), (snd (reset o)).
        split; [by destruct (reset o)|]. split; [|apply reset_selected].
        rewrite reset_unfold. by destruct (decide _).
      - by exists (Ok tt), o. }
    destruct r as [[]| |]; [|done..].
    unfold bind at 1, lift at 1.
    pose proof (take_nil_not_fuel pop (np_where (map negb (self_C o)))) as Htake.
    destruct (take pop _) as [sub| |]; [|done..].
    unfold bind at 1, lift at 1. specialize (Hf sub).
    destruct (func_select sub) as [i| |]; [|done..].
    unfold bind at 1, lift at 1, getitem.
    destruct (_ !! i) as [best|]; [|done].
    unfold bind. pose proof (select_not_fuel best o1) as Hsel.
    destruct (select best o1) as [[[]| |] o2] eqn:Hselect; [|done..].
    apply IH. apply select_Ok_selected in Hselect.
    rewrite Hselect, length_app, HS. simpl. lia.
Qed.

Lemma select_by_clearing_not_cut_off pop D n_select func_select eps :
  (forall p, func_select p <> OutOfFuel) ->
  fst (select_by_clearing pop D n_select func_select eps) <> OutOfFuel.
Proof.
  intros Hf. unfold select_by_clearing, bind.
  pose proof (select_loop_enough_fuel pop n_select func_select n_select
                (init D eps) Hf ltac:(simpl; lia)) as Hloop.
  destruct (select_loop _ _ _ _ _) as [[[]| |] o]; done.
Qed.

Lemma select_loop_step fuel pop n_select func_select :
  select_loop (S fuel) pop n_select func_select =
  (S_ <- selected ;;
   if length S_ <? n_select then
     remaining_ <- remaining ;;
     (if length remaining_ =? 0 then reset else ret tt) ;;;
     sub <- lift (take pop remaining_) ;;
     i <- lift (func_select sub) ;;
     best <- lift (getitem remaining_ i) ;;
     select best ;;;
     select_loop fuel pop n_select func_select
   else ret tt).
Proof. reflexivity. Qed.

(** On the two points no scoring function makes the call return: after
    either first pick both positions are cleared, and the second pass picks
    from the stale empty pool. *)
Lemma select_by_clearing_two_points_any_scoring pop func_select l o :
  select_by_clearing pop Example.two_points 2 func_select 1 <> (Ok l, o).
Proof.
  unfold select_by_clearing.
  assert (forall o', select_loop 2 pop 2 func_select (init Example.two_points 1)
                     <> (Ok tt, o')) as Hloop.
  { intros o'. rewrite select_loop_step. unfold bind at 1. unfold selected at 1, gets at 1.
    change (length (self_S (init Example.two_points 1)) <? 2) with true. cbv iota.
    unfold bind at 1. unfold remaining at 1, gets at 1.
    change (np_where (map negb (self_C (init Example.two_points 1)))) with [0; 1].
    change (length [0; 1] =? 0) with false. cbv iota.
    unfold bind at 1. unfold ret at 1.
    unfold bind at 1, lift at 1.
    destruct (take pop [0; 1]) as [sub| |]; [|done..].
    unfold bind at 1, lift at 1.
    destruct (func_select sub) as [i| |]; [|done..].
    unfold bind at 1, lift at 1, getitem.
    destruct i as [|[|i]]; [| |done].
    - simpl ([0; 1] !! 0). cbv iota.
      unfold bind at 1.
      change (select 0 (init Example.two_points 1)) with
        (Ok tt, {| self_D := Example.two_points; self_n := 2; self_epsilon := 1;
                   self_S := [0]; self_C := [true; true] |}).
      cbv iota beta.
      rewrite (select_loop_exhausted_pool 0 pop 2 func_select _
                 {| self_D := Example.two_points; self_n := 2; self_epsilon := 1;
                    self_S := [0]; self_C := [true; false] |});
        [by destruct (func_select []) | simpl; lia | done | done].
    - simpl ([0; 1] !! 1). cbv iota.
      unfold bind at 1.
      change (select 1 (init Example.two_points 1)) with
        (Ok tt, {| self_D := Example.two_points; self_n := 2; self_epsilon := 1;
                   self_S := [1]; self_C := [true; true] |}).
      cbv iota beta.
      rewrite (select_loop_exhausted_pool 0 pop 2 func_select _
                 {| self_D := Example.two_points; self_n := 2; self_epsilon := 1;
                    self_S := [1]; self_C := [false; true] |});
        [by destruct (func_select []) | simpl; lia | done | done]. }
  intros Heq. apply bind_Ok in Heq as ([] & o' & Hl & _). by apply Hloop in Hl.
Qed.

End ClearingProperties.

(** ** The driver *)

Section DriverProperties.
Import Driver.
Context `{Hooks}.

Lemma solve_unfold fuel problem_ termination_ seed_ verbose_ callback_
    save_history_ pf_ evaluator_ w :
  solve fuel problem_ termination_ seed_ verbose_ callback_ save_history_
    pf_ evaluator_ w =
  (pop_ <- run_generations fuel problem_ termination_ seed_ verbose_
             callback_ save_history_ pf_ evaluator_ ;;
   solve_extract problem_ pf_ pop_) w.
Proof.
  unfold solve, run_generations, bind.
  destruct (solve_setup _ _ _ _ _ _ _ _ w) as [[u| |] w1]; done.
Qed.

Lemma pool_of_no_candidates (a : Algorithm) (pop_ : Population) :
  optimal_candidates a pop_ = [] -> optimal_pool a pop_ = [].
Proof. unfold optimal_candidates, optimal_pool. by intros ->. Qed.

(** With no candidate at all the extraction raises. *)
Lemma solve_extract_no_candidates problem_ pf_ pop_ w :
  optimal_candidates (alg w) pop_ = [] ->
  solve_extract problem_ pf_ pop_ w = (Raise IndexError, w).
Proof.
  unfold solve_extract, optimal_candidates, self, gets, lift.
  unfold bind at 1. intros ->. done.
Qed.

(** What the extraction does with at least one candidate, path by path.  It
    leaves the object and the trace as they are. *)
Lemma solve_extract_unfold problem_ pf_ pop_ w :
  optimal_candidates (alg w) pop_ <> [] ->
  solve_extract problem_ pf_ pop_ w =
  let pool := optimal_pool (alg w) pop_ in
  let result := fun o x => make_result problem_ pf_ pop_ o x (history (alg w)) in
  match pool with
  | [] => (Ok (result None None), w)
  | _ :: _ =>
      if 1 <? n_obj problem_ then
        match nds_do (map F pool) with
        | Ok front_I =>
            match take pool front_I with
            | Ok front =>
                (Ok (result (Some (Many front)) (Some (attrs_of_pop front))), w)
            | Raise e => (Raise e, w)
            | OutOfFuel => (OutOfFuel, w)
            end
        | Raise e => (Raise e, w)
        | OutOfFuel => (OutOfFuel, w)
        end
      else
        match np_argmin (concat (map F pool)) with
        | Ok i =>
            match pool !! i with
            | Some best =>
                (Ok (result (Some (One best)) (Some (attrs_of_ind best))), w)
            | None => (Raise IndexError, w)
            end
        | Raise e => (Raise e, w)
        | OutOfFuel => (OutOfFuel, w)
        end
  end.
Proof.
  intros Hcand.
  unfold solve_extract, optimal_pool, optimal_candidates, self, gets, lift,
    getitem, ret in *.
  unfold bind at 1. cbv zeta.
  destruct (match opt (alg w) with Some o => o | None => pop_ end)
    as [|c cands] eqn:Hc; [done|].
  unfold bind at 1. cbn [feasible_column]. rewrite compress_filter.
  destruct (filter _ _) as [|x pool] eqn:Hpool; [done|].
  unfold bind at 1.
  replace (0 <? length (x :: pool)) with true by done.
  destruct (1 <? n_obj problem_).
  - unfold bind. destruct (nds_do _) as [I| |]; [|done..].
    destruct (take _ I) as [front| |]; done.
  - unfold bind. destruct (np_argmin _) as [i| |]; [|done..].
    destruct (_ !! i); done.
Qed.


(** C3: on a single-objective problem, once [_solve] has returned and the
    pool of feasible candidates is not empty, the run returns exactly one
    individual of the pool; its objective value is at most that of every
    member of the pool, and strictly below that of every member that
    comes before it (the first least one). *)
Theorem single_objective_optimum fuel problem_ termination_ seed_
    verbose_ callback_ save_history_ pf_ evaluator_ w pop_ w1 :
  run_generations fuel problem_ termination_ seed_ verbose_ callback_
    save_history_ pf_ evaluator_ w = (Ok pop_, w1) ->
  n_obj problem_ = 1 ->
  let pool := optimal_pool (alg w1) pop_ in
  pool <> [] ->
  Forall (fun i => length (F i) = n_obj problem_) pool ->
  exists res m best fbest,
    solve fuel problem_ termination_ seed_ verbose_ callback_ save_history_
      pf_ evaluator_ w = (Ok res, w1) /\
    res_opt res = Some (One best) /\
    res_F res = Some (One [fbest]) /\
    pool !! m = Some best /\
    F best = [fbest] /\
    forall j other f,
      pool !! j = Some other -> F other = [f] ->
      (fbest <= f)%Q /\ (j < m -> (fbest < f)%Q).
Proof.
  intros Hgen Hn pool Hne Hshape. rewrite Hn in Hshape.
  assert (concat (map F pool) <> []) as Hflat.
  { destruct pool as [|x pool']; [done|].
    apply Forall_cons in Hshape as [Hx _]. simpl.
    destruct (F x); [done|]. done. }
  destruct (np_argmin_spec _ Hflat) as (m & v & Harg & Hm & Hleast).
  rewrite lookup_concat_singletons in Hm by done.
  destruct (pool !! m) as [best|] eqn:Hbest; [|done]. simpl in Hm.
  assert (F best = [v]) as HFbest.
  { eapply Forall_forall in Hshape; [|by eapply list_elem_of_lookup_2].
    destruct (F best) as [|f [|]]; try done. simpl in Hm. congruence. }
  exists (make_result problem_ pf_ pop_ (Some (One best))
            (Some (attrs_of_ind best)) (history (alg w1))), m, best, v.
  split; [|split; [done|split; [|split; [done|split; [done|]]]]].
  - rewrite solve_unfold. unfold bind. rewrite Hgen.
    rewrite solve_extract_unfold
      by (intros Hc; apply Hne; by apply pool_of_no_candidates).
    cbv zeta. fold pool.
    destruct pool as [|x pool'] eqn:Hpool; [done|].
    rewrite Hn. simpl (1 <? 1). cbv iota. rewrite Harg, Hbest. done.
  - simpl. by rewrite HFbest.
  - intros j other f Hj Hf. apply (Hleast j f).
    rewrite lookup_concat_singletons by done. rewrite Hj. simpl.
    by rewrite Hf.
Qed.

Lemma dominates_not_in_front (Fs : list (list Q)) (front_I : list nat) (i : nat) (Fi Fj : list Q) :
  is_first_front Fs front_I = true ->
  i ∈ front_I -> Fs !! i = Some Fi -> Fj ∈ Fs ->
  dominates Fj Fi = false.
Proof.
  unfold is_first_front. intros [Hsound _]%andb_prop Hi HFi HFj.
  rewrite forallb_forall in Hsound. apply list_elem_of_In in Hi.
  specialize (Hsound i Hi). unfold non_dominated_in in Hsound.
  rewrite HFi in Hsound. rewrite forallb_forall in Hsound.
  apply list_elem_of_In in HFj. specialize (Hsound Fj HFj).
  by apply negb_true_iff in Hsound.
Qed.

(** C4: on a multi-objective problem, once [_solve] has returned and the
    pool of feasible candidates is not empty, a run that returns gives
    the pool members at the positions the sorting oracle returned for the
    pool's objective matrix, in the oracle's order.  If what the oracle
    returned is the first non-dominated front of that matrix, the run does
    return, every returned individual is feasible, and none of them is
    dominated by another. *)
Theorem multi_objective_optimum fuel problem_ termination_ seed_
    verbose_ callback_ save_history_ pf_ evaluator_ w pop_ w1 :
  run_generations fuel problem_ termination_ seed_ verbose_ callback_
    save_history_ pf_ evaluator_ w = (Ok pop_, w1) ->
  1 < n_obj problem_ ->
  let pool := optimal_pool (alg w1) pop_ in
  let run := solve fuel problem_ termination_ seed_ verbose_ callback_
               save_history_ pf_ evaluator_ w in
  pool <> [] ->
  (forall res w2, run = (Ok res, w2) ->
     exists front_I front,
       nds_do (map F pool) = Ok front_I /\
       Forall2 (fun i x => pool !! i = Some x) front_I front /\
       res_opt res = Some (Many front) /\
       res_X res = Some (Many (map X front)) /\
       res_F res = Some (Many (map F front)) /\
       res_CV res = Some (Many (map CV front)) /\
       res_G res = Some (Many (map G front))) /\
  (forall front_I,
     nds_do (map F pool) = Ok front_I ->
     is_first_front (map F pool) front_I = true ->
     exists res front,
       run = (Ok res, w1) /\
       res_opt res = Some (Many front) /\
       Forall2 (fun i x => pool !! i = Some x) front_I front /\
       Forall (fun x => feasible x = true) front /\
       forall a b, a ∈ front -> b ∈ front -> dominates (F a) (F b) = false).
Proof.
  intros Hgen Hn pool run Hne. apply Nat.ltb_lt in Hn.
  assert (run = solve_extract problem_ pf_ pop_ w1) as ->.
  { unfold run. rewrite solve_unfold. unfold bind. by rewrite Hgen. }
  rewrite solve_extract_unfold
    by (intros Hc; apply Hne; by apply pool_of_no_candidates).
  cbv zeta. fold pool.
  destruct pool as [|x pool'] eqn:Hpool; [done|]. rewrite Hn.
  split.
  - intros res w2.
    destruct (nds_do _) as [front_I| |]; [|done..].
    destruct (take _ front_I) as [front| |] eqn:Htake; [|done..].
    intros [= <- <-]. exists front_I, front.
    apply take_Some in Htake. done.
  - intros front_I -> Hfront.
    assert (exists front, take (x :: pool') front_I = Ok front) as [front Htake].
    { assert (Forall (fun i => i < length (x :: pool')) front_I) as Hrange.
      { apply Forall_forall. intros i Hi.
        unfold is_first_front in Hfront. apply andb_prop in Hfront as [Hsound _].
        rewrite forallb_forall in Hsound. apply list_elem_of_In in Hi.
        specialize (Hsound i Hi). unfold non_dominated_in in Hsound.
        destruct (map F (x :: pool') !! i) eqn:Hi'; [|done].
        apply lookup_lt_Some in Hi'. by rewrite length_map in Hi'. }
      clear Hfront. induction front_I as [|i front_I IH]; [by eexists|].
      apply Forall_cons in Hrange as [Hi Hrange].
      destruct (IH Hrange) as [front Hfront].
      apply lookup_lt_is_Some_2 in Hi as [y Hy].
      exists (y :: front). cbn [take]. by rewrite Hy, Hfront. }
    rewrite Htake. apply take_Some in Htake.
    eexists _, front. split; [done|]. split; [done|]. split; [done|].
    assert (forall a, a ∈ front -> exists i, i ∈ front_I /\ (x :: pool') !! i = Some a) as Hmem.
    { intros a Ha. apply list_elem_of_lookup in Ha as [n Hn'].
      destruct (Forall2_lookup_r _ _ _ _ _ Htake Hn') as (i & Hi & Hia).
      exists i. split; [by eapply list_elem_of_lookup_2 | done]. }
    split.
    + apply Forall_forall. intros a Ha.
      destruct (Hmem a Ha) as (i & _ & Hia).
      apply list_elem_of_lookup_2 in Hia. rewrite <- Hpool in Hia.
      unfold pool, optimal_pool in Hia. by apply list_elem_of_filter in Hia as [? _].
    + intros a b Ha Hb.
      destruct (Hmem a Ha) as (i & _ & Hia).
      destruct (Hmem b Hb) as (j & Hj & Hjb).
      apply (dominates_not_in_front (map F (x :: pool')) front_I j); try done.
      * by rewrite map_is_fmap, list_lookup_fmap, Hjb.
      * rewrite map_is_fmap. apply list_elem_of_fmap_2.
        by eapply list_elem_of_lookup_2.
Qed.

(** C5: with no termination criterion passed and none set on the object,
    and a seed that [np.random.seed] accepts (0 <= seed < 2^32; a seed
    outside that range makes the seeding itself raise ValueError before
    [_solve] is reached), [solve] raises the exception of [_solve] ("No
    termination criterion defined ...") and nothing catches it; the only
    thing that has happened by then is the seeding of the random
    generator: no hook has been called, and the population and the
    generation counter are untouched. *)
Theorem no_termination_criterion fuel problem_ seed_ verbose_ callback_
    save_history_ pf_ evaluator_ w :
  termination (alg w) = None ->
  valid_seed (match seed_ with Some s => s | None => randint end) = true ->
  exists w',
    solve fuel problem_ None seed_ verbose_ callback_ save_history_ pf_
      evaluator_ w = (Raise (Exception no_termination_msg), w') /\
    trace w' = trace w ++ [EvSeed (match seed_ with Some s => s | None => randint end)] /\
    pop (alg w') = pop (alg w) /\
    n_gen (alg w') = n_gen (alg w) /\
    termination (alg w') = None.
Proof.
  destruct w as [[e p t f o s h vb fd cb sh g pp st] tr]. simpl.
  intros -> Hseed.
  unfold solve, solve_setup, np_random_seed, _solve, bind.
  rewrite Hseed.
  unfold log, setattr, self, modify, gets, raise, ret.
  destruct evaluator_; simpl; eexists; (split; [reflexivity|]); done.
Qed.

(** *** The bookkeeping pass and the generation loop *)

Lemma same_bookkeeping_refl w : same_bookkeeping w w.
Proof.
  repeat split; try done. exists []. by rewrite app_nil_r.
Qed.

Lemma same_bookkeeping_trans w1 w2 w3 :
  same_bookkeeping w1 w2 -> same_bookkeeping w2 w3 -> same_bookkeeping w1 w3.
Proof.
  intros (Hh & Hs & Hg & t & Ht & Hc) (Hh' & Hs' & Hg' & t' & Ht' & Hc').
  repeat split; try congruence.
  exists (t ++ t'). split.
  - by rewrite Ht', Ht, app_assoc.
  - unfold control_events in *. by rewrite filter_app, Hc, Hc'.
Qed.

Lemma invoke_same_bookkeeping {A} (ev : outcome A -> Event) (h : M Algorithm A) w r w' :
  keeps_bookkeeping h ->
  (forall r, is_control (ev r) = false) ->
  invoke ev h w = (r, w') ->
  same_bookkeeping w w'.
Proof.
  intros Hk Hev. unfold invoke. specialize (Hk (alg w)).
  destruct (h (alg w)) as [r' a']. intros [= <- <-]. simpl in *.
  destruct Hk as (Hh & Hs & Hg). repeat split; try done.
  exists [ev r']. split; [done|].
  unfold control_events. rewrite filter_cons, decide_False; [done|].
  by rewrite Hev.
Qed.

Lemma log_print_same_bookkeeping line w r w' :
  log (EvPrint line) w = (r, w') -> same_bookkeeping w w'.
Proof.
  intros [= <- <-]. repeat split; try done. by exists [EvPrint line].
Qed.

Lemma display_same_bookkeeping d header w r w' :
  _display d header w = (r, w') -> same_bookkeeping w w'.
Proof.
  unfold _display. destruct header.
  - unfold bind. simpl. intros [= <- <-]. repeat split; try done.
    eexists. simpl. split; [rewrite <- !app_assoc; reflexivity | done].
  - unfold bind. simpl. intros [= <- <-]. repeat split; try done.
    eexists. simpl. split; [reflexivity | done].
Qed.

Lemma each_iteration_spec first w w' :
  hooks_keep_bookkeeping ->
  _each_iteration first w = (Ok tt, w') ->
  save_history (alg w') = save_history (alg w) /\
  n_gen (alg w') = n_gen (alg w) /\
  (exists t, trace w' = trace w ++ t /\ control_events t = []) /\
  if save_history (alg w) then
    exists h obj,
      history (alg w) = Some h /\
      history (alg w') = Some (h ++ [obj]) /\
      n_gen obj = n_gen (alg w)
  else history (alg w') = history (alg w).
Proof.
  intros (_ & _ & _ & _ & Hcb & Hdisp) Hrun. unfold _each_iteration in Hrun.
  apply bind_Ok in Hrun as (v & ? & [= <- <-] & Hrun).
  apply bind_Ok in Hrun as (fd & ? & [= <- <-] & Hrun).
  apply bind_Ok in Hrun as ([] & w1 & Hdisplay & Hrun).
  assert (same_bookkeeping w w1) as H1.
  { destruct (verbose (alg w)); [|injection Hdisplay as <-; apply same_bookkeeping_refl].
    destruct (func_display_attrs (alg w)) as [f|];
      [|injection Hdisplay as <-; apply same_bookkeeping_refl].
    apply bind_Ok in Hdisplay as (d & w0 & Hcall & Hdisplay).
    eapply same_bookkeeping_trans.
    - eapply invoke_same_bookkeeping; [apply Hdisp | | apply Hcall]. done.
    - destruct d as [d|].
      + by eapply display_same_bookkeeping.
      + injection Hdisplay as <-. apply same_bookkeeping_refl. }
  apply bind_Ok in Hrun as (cb & ? & [= <- <-] & Hrun).
  apply bind_Ok in Hrun as ([] & w2 & Hcall & Hrun).
  assert (same_bookkeeping w1 w2) as H2.
  { destruct (callback (alg w1)) as [c|].
    - eapply invoke_same_bookkeeping; [apply Hcb | | apply Hcall]. done.
    - injection Hcall as <-. apply same_bookkeeping_refl. }
  pose proof (same_bookkeeping_trans _ _ _ H1 H2) as (Hh & Hs & Hg & t & Ht & Hc).
  apply bind_Ok in Hrun as (sh & ? & [= <- <-] & Hrun).
  rewrite <- Hs, <- Hg. destruct (save_history (alg w2)) eqn:Hsh.
  - destruct w2 as [[e p tm f o s h vb fd' cb' sh' g pp st] tr].
    simpl in *.
    unfold bind, deepcopy, bind, self, setattr, modify, gets, raise, ret in Hrun.
    simpl in Hrun.
    destruct (deepcopy_raises _); [done|].
    destruct h as [h|]; [|done]. injection Hrun as <-. simpl.
    split; [done|]. split; [done|]. split; [by exists t|].
    eexists h, _. split; [done|]. split; [done|]. done.
  - injection Hrun as <-.
    split; [done|]. split; [done|]. split; [by exists t|]. done.
Qed.

Lemma setattr_inv f w r w' :
  setattr f w = (r, w') -> r = Ok tt /\ alg w' = f (alg w) /\ trace w' = trace w.
Proof. by intros [= <- <-]. Qed.

Lemma deref_Ok {A} (f : Algorithm -> option A) w x w' :
  deref f w = (Ok x, w') -> f (alg w) = Some x /\ w' = w.
Proof.
  unfold deref, bind, self, gets, ret, raise.
  destruct (f (alg w)); [|done]. by intros [= <- <-].
Qed.

Lemma invoke_Ok {A} (ev : outcome A -> Event) (h : M Algorithm A) w x w' :
  invoke ev h w = (Ok x, w') ->
  h (alg w) = (Ok x, alg w') /\ trace w' = trace w ++ [ev (Ok x)].
Proof.
  unfold invoke. destruct (h (alg w)) as [r a']. by intros [= -> <-].
Qed.

(** The loop, from a state with history [h] and generation counter [g]:
    if it ends after [k] runs of its body, the counter is [g + k], the
    termination criterion was consulted [k + 1] times and only the last
    answer was negative, and with [save_history] one snapshot per run was
    appended, the i-th with counter [g + 1 + i]. *)
Lemma solve_loop_spec fuel w w' h g :
  hooks_keep_bookkeeping ->
  solve_loop fuel w = (Ok tt, w') ->
  history (alg w) = Some h ->
  n_gen (alg w) = Some g ->
  exists k hs t,
    n_gen (alg w') = Some (g + k) /\
    save_history (alg w') = save_history (alg w) /\
    history (alg w') = Some (h ++ hs) /\
    trace w' = trace w ++ t /\
    control_events t =
      concat (replicate k [EvDoContinue (Some true); EvNext]) ++
      [EvDoContinue (Some false)] /\
    if save_history (alg w) then
      length hs = k /\ forall i s, hs !! i = Some s -> n_gen s = Some (g + 1 + i)
    else hs = [].
Proof.
  intros Hk. pose proof Hk as (_ & Hnext & _ & Hcont & _ & _).
  revert w h g. induction fuel as [|fuel IH]; intros w h g Hrun Hh Hg.
  - simpl in Hrun.
    apply bind_Ok in Hrun as (tm & ? & [Htm ->]%deref_Ok & Hrun).
    apply bind_Ok in Hrun as (b & w1 & Hcall & Hrun).
    destruct b; [done|]. injection Hrun as <-.
    apply invoke_Ok in Hcall as [Hcall Htr].
    destruct (Hcont tm (alg w)) as (Hh1 & Hs1 & Hg1). rewrite Hcall in *. simpl in *.
    exists 0, [], [EvDoContinue (Some false)].
    rewrite Nat.add_0_r, app_nil_r.
    repeat split; try congruence. by destruct (save_history (alg w)).
  - simpl in Hrun.
    apply bind_Ok in Hrun as (tm & ? & [Htm ->]%deref_Ok & Hrun).
    apply bind_Ok in Hrun as (b & w1 & Hcall & Hrun).
    apply invoke_Ok in Hcall as [Hcall Htr].
    destruct (Hcont tm (alg w)) as (Hh1 & Hs1 & Hg1). rewrite Hcall in *. simpl in *.
    destruct b.
    + apply bind_Ok in Hrun as (g' & ? & [Hg' ->]%deref_Ok & Hrun).
      assert (g' = g) as -> by congruence.
      apply bind_Ok in Hrun as ([] & w2 & (_ & Ha2 & Ht2)%setattr_inv & Hrun).
      apply bind_Ok in Hrun as (p & w3 & [Hcall3 Ht3]%invoke_Ok & Hrun).
      destruct (Hnext (alg w2)) as (Hh3 & Hs3 & Hg3). rewrite Hcall3 in *. simpl in *.
      apply bind_Ok in Hrun as ([] & w4 & (_ & Ha4 & Ht4)%setattr_inv & Hrun).
      apply bind_Ok in Hrun as ([] & w5 & Hpass & Hrun).
      apply each_iteration_spec in Hpass as (Hs5 & Hg5 & (t5 & Ht5 & Hc5) & Hh5); [|done].
      assert (history (alg w4) = Some h /\ save_history (alg w4) = save_history (alg w) /\
              n_gen (alg w4) = Some (g + 1)) as (Hh4 & Hs4 & Hg4).
      { rewrite Ha4. destruct (alg w3) eqn:E3. simpl in *.
        rewrite Ha2 in *. destruct (alg w1) eqn:E1. simpl in *.
        repeat split; congruence. }
      rewrite Hs4, Hg4 in *.
      destruct (save_history (alg w)) eqn:Hsave.
      * destruct Hh5 as (h0 & obj & Hh0 & Hh5 & Hobj).
        assert (h0 = h) as -> by congruence.
        destruct (IH w5 (h ++ [obj]) (g + 1) Hrun Hh5 Hg5)
          as (k & hs & t & Hgk & Hsk & Hhk & Htk & Hck & Hhs).
        rewrite Hs5 in Hhs. destruct Hhs as [Hlen Hsnap].
        exists (S k), (obj :: hs), ([EvDoContinue (Some true); EvNext] ++ t5 ++ t).
        split; [rewrite Hgk; f_equal; lia|].
        split; [congruence|].
        split; [by rewrite Hhk, <- app_assoc|].
        split; [rewrite Htk, Ht5, Ht4, Ht3, Ht2, Htr; by rewrite <- !app_assoc|].
        split.
        { unfold control_events in *. rewrite !filter_app, Hc5, Hck. done. }
        split; [simpl; lia|].
        intros [|i] s Hi; simpl in Hi.
        -- injection Hi as <-. rewrite Hobj. f_equal. lia.
        -- rewrite (Hsnap i s Hi). f_equal. lia.
      * destruct (IH w5 h (g + 1) Hrun ltac:(congruence) Hg5)
          as (k & hs & t & Hgk & Hsk & Hhk & Htk & Hck & Hhs).
        rewrite Hs5 in Hhs. subst hs.
        exists (S k), [], ([EvDoContinue (Some true); EvNext] ++ t5 ++ t).
        split; [rewrite Hgk; f_equal; lia|].
        split; [congruence|].
        split; [done|].
        split; [rewrite Htk, Ht5, Ht4, Ht3, Ht2, Htr; by rewrite <- !app_assoc|].
        split; [|done].
        unfold control_events in *. rewrite !filter_app, Hc5, Hck. done.
    + injection Hrun as <-.
      exists 0, [], [EvDoContinue (Some false)].
      rewrite Nat.add_0_r, app_nil_r.
      repeat split; try congruence. by destruct (save_history (alg w)).
Qed.

(** The seeding is the one step of the set-up that can fail. *)
Lemma solve_setup_bad_seed problem_ termination_ seed_ verbose_ callback_
    save_history_ pf_ evaluator_ w :
  valid_seed (match seed_ with Some s => s | None => randint end) = false ->
  solve_setup problem_ termination_ seed_ verbose_ callback_ save_history_
    pf_ evaluator_ w = (Raise ValueError, w).
Proof.
  intros Hseed. unfold solve_setup, np_random_seed, bind. by rewrite Hseed.
Qed.

Lemma solve_setup_spec problem_ termination_ seed_ verbose_ callback_
    save_history_ pf_ evaluator_ w :
  valid_seed (match seed_ with Some s => s | None => randint end) = true ->
  exists a',
    solve_setup problem_ termination_ seed_ verbose_ callback_ save_history_
      pf_ evaluator_ w =
    (Ok tt, {| alg := a';
               trace := trace w ++
                 [EvSeed (match seed_ with Some s => s | None => randint end)] |}) /\
    history a' = Some [] /\
    save_history a' = save_history_.
Proof.
  intros Hseed.
  destruct w as [[e p t f o s h vb fd cb sh g pp st] tr].
  unfold solve_setup, np_random_seed, bind. rewrite Hseed.
  unfold log, setattr, self, modify, gets, ret.
  destruct evaluator_, termination_; simpl; eexists; (split; [reflexivity|]); done.
Qed.

Lemma solve_extract_Ok problem_ pf_ pop_ w res w' :
  solve_extract problem_ pf_ pop_ w = (Ok res, w') ->
  w' = w /\ res_history res = history (alg w) /\ res_pop res = Some pop_.
Proof.
  destruct (optimal_candidates (alg w) pop_) as [|c cands] eqn:Hcand;
    [by rewrite solve_extract_no_candidates|].
  rewrite solve_extract_unfold by (by rewrite Hcand). cbv zeta.
  destruct (optimal_pool _ _) as [|x pool]; [by intros [= <- <-]|].
  destruct (1 <? n_obj problem_).
  - destruct (nds_do _) as [front_I| |]; [|done..].
    destruct (take _ _) as [front| |]; [|done..]. by intros [= <- <-].
  - destruct (np_argmin _) as [i| |]; [|done..].
    destruct (_ !! i); [|done]. by intros [= <- <-].
Qed.

(** C6: if the hooks leave the driver's bookkeeping alone, then in every
    run that returns, with [k] the number of times the loop body ran: the
    control events are one initialisation, [k] positive answers of the
    termination criterion each followed by an advancement, then one
    negative answer and the finalisation; the generation counter ends at
    [1 + k]; with [save_history] the history of the result has [1 + k]
    snapshots, the i-th taken at generation [i + 1] (so one snapshot, of
    the initial population, when the first answer is negative); without
    it the history is empty. *)
Theorem history_length fuel problem_ termination_ seed_ verbose_ callback_
    save_history_ pf_ evaluator_ w res w' :
  hooks_keep_bookkeeping ->
  solve fuel problem_ termination_ seed_ verbose_ callback_ save_history_
    pf_ evaluator_ w = (Ok res, w') ->
  exists k h t,
    trace w' =
      trace w ++ EvSeed (match seed_ with Some s => s | None => randint end) :: t /\
    control_events t = control_trace k /\
    (control_events t !! 1 = Some (EvDoContinue (Some false)) <-> k = 0) /\
    n_gen (alg w') = Some (1 + k) /\
    res_history res = Some h /\
    if save_history_ then
      length h = 1 + k /\ forall i s, h !! i = Some s -> n_gen s = Some (i + 1)
    else h = [].
Proof.
  intros Hk Hrun. pose proof Hk as (Hinit & _ & Hfin & _ & _ & _).
  assert (forall k t, control_events t = control_trace k ->
            control_events t !! 1 = Some (EvDoContinue (Some false)) <-> k = 0)
    as Hfirst.
  { intros k t ->. destruct k; simpl; split; done. }
  unfold solve in Hrun.
  apply bind_Ok in Hrun as ([] & w1 & Hsetup & Hrun).
  destruct (valid_seed (match seed_ with Some s => s | None => randint end))
    eqn:Hseed; [|by rewrite solve_setup_bad_seed in Hsetup].
  destruct (solve_setup_spec problem_ termination_ seed_ verbose_ callback_
              save_history_ pf_ evaluator_ w Hseed) as (a1 & Hsetup' & Hh1 & Hs1).
  rewrite Hsetup' in Hsetup. injection Hsetup as <-.
  apply bind_Ok in Hrun as (pop_ & w9 & Hsolve & Hrun).
  apply solve_extract_Ok in Hrun as (-> & Hres & _).
  unfold _solve in Hsolve.
  apply bind_Ok in Hsolve as (tm & ? & [= <- <-] & Hsolve). simpl in Hsolve.
  destruct (termination a1) as [tm|]; [|done].
  apply bind_Ok in Hsolve as ([] & w2 & (_ & Ha2 & Ht2)%setattr_inv & Hsolve).
  apply bind_Ok in Hsolve as (p & w3 & [Hcall3 Ht3]%invoke_Ok & Hsolve).
  destruct (Hinit (alg w2)) as (Hh3 & Hs3 & Hg3). rewrite Hcall3 in *. simpl in *.
  apply bind_Ok in Hsolve as ([] & w4 & (_ & Ha4 & Ht4)%setattr_inv & Hsolve).
  assert (history (alg w4) = Some [] /\ save_history (alg w4) = save_history_ /\
          n_gen (alg w4) = Some 1) as (Hh4 & Hs4 & Hg4).
  { rewrite Ha4. destruct (alg w3) eqn:E3. simpl in *.
    rewrite Ha2 in *. destruct a1. simpl in *.
    repeat split; congruence. }
  apply bind_Ok in Hsolve as ([] & w5 & Hpass & Hsolve).
  apply each_iteration_spec in Hpass as (Hs5 & Hg5 & (t5 & Ht5 & Hc5) & Hh5); [|done].
  rewrite Hs4, Hg4 in *.
  apply bind_Ok in Hsolve as ([] & w6 & Hloop & Hsolve).
  apply bind_Ok in Hsolve as ([] & w7 & [Hcall7 Ht7]%invoke_Ok & Hsolve).
  destruct (Hfin (alg w6)) as (Hh7 & Hs7 & Hg7). rewrite Hcall7 in *. simpl in *.
  apply deref_Ok in Hsolve as [_ ->].
  rewrite Hres, Hh7, Hg7.
  destruct save_history_ eqn:Hsave.
  - destruct Hh5 as (h0 & obj & Hh0 & Hh5 & Hobj).
    assert (h0 = []) as -> by congruence.
    destruct (solve_loop_spec fuel w5 w6 ([] ++ [obj]) 1 Hk Hloop Hh5 Hg5)
      as (k & hs & t & Hgk & Hsk & Hhk & Htk & Hck & Hhs).
    rewrite Hs5 in Hhs. destruct Hhs as [Hlen Hsnap].
    exists k, (obj :: hs), ([EvInitialize] ++ t5 ++ t ++ [EvFinalize]).
    split; [rewrite Ht7, Htk, Ht5, Ht4, Ht3, Ht2; simpl; by rewrite <- !app_assoc|].
    assert (control_events ([EvInitialize] ++ t5 ++ t ++ [EvFinalize]) =
            control_trace k) as Hctl.
    { unfold control_events, control_trace in *.
      rewrite !filter_app, Hc5, Hck. simpl. by rewrite <- app_assoc. }
    split; [exact Hctl|]. split; [by apply Hfirst|].
    split; [done|]. split; [done|]. split; [simpl; lia|].
    intros [|i] s Hi; simpl in Hi.
    + injection Hi as <-. by rewrite Hobj.
    + rewrite (Hsnap i s Hi). f_equal. lia.
  - destruct (solve_loop_spec fuel w5 w6 [] 1 Hk Hloop ltac:(congruence) Hg5)
      as (k & hs & t & Hgk & Hsk & Hhk & Htk & Hck & Hhs).
    rewrite Hs5 in Hhs. subst hs.
    exists k, [], ([EvInitialize] ++ t5 ++ t ++ [EvFinalize]).
    split; [rewrite Ht7, Htk, Ht5, Ht4, Ht3, Ht2; simpl; by rewrite <- !app_assoc|].
    assert (control_events ([EvInitialize] ++ t5 ++ t ++ [EvFinalize]) =
            control_trace k) as Hctl.
    { unfold control_events, control_trace in *.
      rewrite !filter_app, Hc5, Hck. simpl. by rewrite <- app_assoc. }
    split; [exact Hctl|]. split; [by apply Hfirst|]. done.
Qed.

End DriverProperties.

Section DriverFuel.
Import Driver.
Context `{Hooks}.

(** Fuel only bounds the loop: a run that is not cut off is the same run
    with any larger bound. *)
Lemma solve_loop_more_fuel fuel fuel' w :
  fuel <= fuel' ->
  fst (solve_loop fuel w) <> OutOfFuel ->
  solve_loop fuel' w = solve_loop fuel w.
Proof.
  revert fuel' w. induction fuel as [|fuel IH]; intros fuel' w Hle Hne.
  - destruct fuel' as [|fuel']; [done|]. simpl in *. unfold bind in *.
    destruct (deref termination w) as [[tm| |] w1]; try done.
    destruct (invoke _ _ w1) as [[[]| |] w2]; try done.
  - destruct fuel' as [|fuel']; [lia|]. simpl in *. unfold bind in *.
    destruct (deref termination w) as [[tm| |] w1]; try done.
    destruct (invoke _ _ w1) as [[[]| |] w2]; try done.
    destruct (deref n_gen w2) as [[g| |] w3]; try done.
    destruct (setattr _ w3) as [[[]| |] w4]; try done.
    destruct (next w4) as [[p| |] w5]; try done.
    destruct (setattr _ w5) as [[[]| |] w6]; try done.
    destruct (_each_iteration false w6) as [[[]| |] w7]; try done.
    apply IH; [lia | done].
Qed.

Lemma _solve_more_fuel fuel fuel' problem_ w :
  fuel <= fuel' ->
  fst (_solve fuel problem_ w) <> OutOfFuel ->
  _solve fuel' problem_ w = _solve fuel problem_ w.
Proof.
  intros Hle Hne. unfold _solve in *.
  apply bind_ext. intros t w1 Ht.
  pose proof (bind_not_cut _ _ _ Hne _ _ Ht) as Hne1. clear Hne.
  destruct t as [t|]; [|done].
  apply bind_ext. intros [] w2 H2.
  pose proof (bind_not_cut _ _ _ Hne1 _ _ H2) as Hne2. clear Hne1.
  apply bind_ext. intros p w3 H3.
  pose proof (bind_not_cut _ _ _ Hne2 _ _ H3) as Hne3. clear Hne2.
  apply bind_ext. intros [] w4 H4.
  pose proof (bind_not_cut _ _ _ Hne3 _ _ H4) as Hne4. clear Hne3.
  apply bind_ext. intros [] w5 H5.
  pose proof (bind_not_cut _ _ _ Hne4 _ _ H5) as Hne5. clear Hne4.
  apply bind_cong_l. apply solve_loop_more_fuel; [done|].
  by eapply bind_not_cut_l.
Qed.

Lemma solve_more_fuel fuel fuel' problem_ termination_ seed_ verbose_
    callback_ save_history_ pf_ evaluator_ w :
  fuel <= fuel' ->
  fst (solve fuel problem_ termination_ seed_ verbose_ callback_
         save_history_ pf_ evaluator_ w) <> OutOfFuel ->
  solve fuel' problem_ termination_ seed_ verbose_ callback_ save_history_
    pf_ evaluator_ w =
  solve fuel problem_ termination_ seed_ verbose_ callback_ save_history_
    pf_ evaluator_ w.
Proof.
  intros Hle Hne. unfold solve in *.
  apply bind_ext. intros [] w1 H1.
  pose proof (bind_not_cut _ _ _ Hne _ _ H1) as Hne1. clear Hne.
  apply bind_cong_l. apply _solve_more_fuel; [done|].
  by eapply bind_not_cut_l.
Qed.

End DriverFuel.

(** ** The properties on concrete runs *)

Section ConcreteRuns.
Import Driver Example.

Lemma example_hooks_keep_bookkeeping (p0 : Population) :
  hooks_keep_bookkeeping (H0 := hooks_of p0).
Proof.
  unfold hooks_keep_bookkeeping, keeps_bookkeeping. simpl.
  repeat split; intros; try done; by destruct a.
Qed.



Lemma single_objective_optimum_witness :
  let w1 := snd (generations pop1 1 3 true) in
  let pool := optimal_pool (alg w1) pop1 in
  generations pop1 1 3 true = (Ok pop1, w1) /\
  pool = [ind [3] true; ind [1] true; ind [2] true; ind [1] true]%Q /\
  exists res m best fbest,
    run pop1 1 3 true = (Ok res, w1) /\
    res_opt res = Some (One best) /\
    res_F res = Some (One [fbest]) /\
    pool !! m = Some best /\
    F best = [fbest] /\
    forall j other f,
      pool !! j = Some other -> F other = [f] ->
      (fbest <= f)%Q /\ (j < m -> (fbest < f)%Q).
Proof.
  intros w1 pool.
  assert (generations pop1 1 3 true = (Ok pop1, w1)) as Hgen by reflexivity.
  assert (pool = [ind [3] true; ind [1] true; ind [2] true; ind [1] true]%Q)
    as Hpool by reflexivity.
  split; [exact Hgen|]. split; [exact Hpool|].
  apply (single_objective_optimum _ _ _ _ _ _ _ _ _ _ _ _ Hgen).
  - reflexivity.
  - fold pool. rewrite Hpool. discriminate.
  - fold pool. rewrite Hpool. repeat constructor.
Defined.

Lemma multi_objective_optimum_witness :
  let w1 := snd (generations pop2 2 2 false) in
  let pool := optimal_pool (alg w1) pop2 in
  generations pop2 2 2 false = (Ok pop2, w1) /\
  pool = [ind [1; 4] true; ind [2; 2] true; ind [3; 3] true; ind [4; 1] true]%Q /\
  nds_do (Hooks := hooks_of pop2) (map F pool) = Ok [0; 1; 3] /\
  is_first_front (map F pool) [0; 1; 3] = true /\
  exists res front,
    run pop2 2 2 false = (Ok res, w1) /\
    res_opt res = Some (Many front) /\
    Forall2 (fun i x => pool !! i = Some x) [0; 1; 3] front /\
    Forall (fun x => feasible x = true) front /\
    forall a b, a ∈ front -> b ∈ front -> dominates (F a) (F b) = false.
Proof.
  intros w1 pool.
  assert (generations pop2 2 2 false = (Ok pop2, w1)) as Hgen by reflexivity.
  assert (pool = [ind [1; 4] true; ind [2; 2] true; ind [3; 3] true; ind [4; 1] true]%Q)
    as Hpool by reflexivity.
  assert (nds_do (Hooks := hooks_of pop2) (map F pool) = Ok [0; 1; 3]) as Hnds
    by reflexivity.
  assert (is_first_front (map F pool) [0; 1; 3] = true) as Hfront by reflexivity.
  split; [exact Hgen|]. split; [exact Hpool|].
  split; [exact Hnds|]. split; [exact Hfront|].
  assert (1 < 2) as Hn by lia.
  assert (pool <> []) as Hne by (rewrite Hpool; discriminate).
  exact (proj2 (multi_objective_optimum _ _ _ _ _ _ _ _ _ _ _ _ Hgen Hn Hne)
           [0; 1; 3] Hnds Hfront).
Defined.

Lemma no_termination_criterion_witness :
  termination (alg w0) = None /\
  exists w',
    solve (H0 := hooks_of pop1) 10 1 None None false None true tt None w0 =
      (Raise (Exception no_termination_msg), w') /\
    trace w' = [EvSeed 42] /\
    pop (alg w') = None /\
    n_gen (alg w') = None /\
    termination (alg w') = None.
Proof.
  assert (termination (alg w0) = None) as Hnone by reflexivity.
  split; [exact Hnone|].
  exact (no_termination_criterion (H0 := hooks_of pop1) 10 1 None false None
           true tt None w0 Hnone eq_refl).
Defined.

(** A run in which the termination criterion answers no at once. *)
Lemma history_length_witness :
  hooks_keep_bookkeeping (H0 := hooks_of pop1) /\
  exists res w',
    run pop1 1 1 true = (Ok res, w') /\
    exists k h t,
      trace w' = trace w0 ++ EvSeed 7 :: t /\
      control_events t = control_trace k /\
      (control_events t !! 1 = Some (EvDoContinue (Some false)) <-> k = 0) /\
      n_gen (alg w') = Some (1 + k) /\
      res_history res = Some h /\
      length h = 1 + k /\
      forall i s, h !! i = Some s -> n_gen s = Some (i + 1).
Proof.
  pose proof (example_hooks_keep_bookkeeping pop1) as Hkeep.
  split; [exact Hkeep|].
  destruct (run pop1 1 1 true) as [[res| |] w'] eqn:Hrun;
    [|vm_compute in Hrun; discriminate Hrun..].
  exists res, w'. split; [reflexivity|].
  exact (history_length (H0 := hooks_of pop1) 10 1 (Some 1) (Some 7%Z) false
           None true tt None w0 res w' Hkeep Hrun).
Defined.

(** The same run, computed: one snapshot, and the loop body never ran. *)
Example immediate_stop_history :
  exists res w' snapshot,
    run pop1 1 1 true = (Ok res, w') /\
    res_history res = Some [snapshot] /\
    n_gen snapshot = Some 1 /\
    pop snapshot = Some pop1 /\
    n_gen (alg w') = Some 1 /\
    trace w' = [EvSeed 7; EvInitialize; EvDoContinue (Some false); EvFinalize].
Proof. eexists _, _, _. split; [vm_compute; reflexivity|]. split; [reflexivity|]. done. Qed.

(** Three generations with history: three snapshots. *)
Example three_generations_history :
  exists res w' s1 s2 s3,
    run pop1 1 3 true = (Ok res, w') /\
    res_history res = Some [s1; s2; s3] /\
    n_gen (alg w') = Some 3 /\
    control_events (trace w') = control_trace 2.
Proof. eexists _, _, _, _, _. split; [vm_compute; reflexivity|]. split; [reflexivity|]. done. Qed.

(** Without [save_history] the history stays empty. *)
Example no_history :
  exists res w',
    run pop1 1 3 false = (Ok res, w') /\
    res_history res = Some [] /\
    n_gen (alg w') = Some 3.
Proof. eexists _, _. split; [vm_compute; reflexivity|]. done. Qed.

End ConcreteRuns.

(* ===================================================================== *)
(** * Part III: further properties of the two files                        *)
(* ===================================================================== *)

(** ** numpy operations *)

Lemma where_from_ascending (mask : list bool) (i p q a b : nat) :
  p < q ->
  where_from i mask !! p = Some a -> where_from i mask !! q = Some b ->
  a < b.
Proof.
  revert i p q. induction mask as [|c mask IH]; intros i p q Hpq Hp Hq; simpl in *.
  - by rewrite lookup_nil in Hp.
  - destruct c; [|by eapply IH].
    destruct q as [|q]; [lia|]. simpl in Hq.
    destruct p as [|p]; simpl in Hp.
    + injection Hp as <-.
      apply list_elem_of_lookup_2, elem_of_where_from in Hq as (k & -> & _). lia.
    + eapply IH; [|done..]. lia.
Qed.

Lemma where_not_nil (c : list bool) :
  np_where (map negb c) = [] <-> Forall (fun b => b = true) c.
Proof.
  split.
  - intros Hnil. apply Forall_lookup. intros j b Hj.
    destruct b; [done|].
    apply elem_of_where_not in Hj. rewrite Hnil in Hj. by apply elem_of_nil in Hj.
  - intros Hall. destruct (np_where (map negb c)) as [|j r] eqn:Hr; [done|].
    assert (j ∈ np_where (map negb c)) as Hj by (rewrite Hr; left).
    apply elem_of_where_not in Hj.
    rewrite Forall_lookup in Hall. by apply Hall in Hj.
Qed.

Lemma count_true_full (c : list bool) :
  length (filter (fun b => b = true) c) = length c <-> Forall (fun b => b = true) c.
Proof.
  induction c as [|b c IH]; [done|].
  rewrite filter_cons, Forall_cons. destruct b.
  - rewrite decide_True by done. simpl. rewrite <- IH. split; [|intros [_ ->]; done].
    intros [= Heq]. done.
  - rewrite decide_False by done. simpl.
    pose proof (length_filter (fun b => b = true) c). split; [lia | by intros [? _]].
Qed.


Lemma bounded_nodup_length (l : list nat) (n : nat) :
  NoDup l -> Forall (fun k => k < n) l -> length l <= n.
Proof.
  intros Hnd Hall.
  transitivity (length (seq 0 n)); [|by rewrite length_seq].
  apply submseteq_length, NoDup_submseteq; [done|].
  intros k Hk. apply elem_of_seq. rewrite Forall_forall in Hall.
  specialize (Hall k Hk). lia.
Qed.


Section ClearingExtras.
Import Clearing.

(** The first column of a non-empty matrix whose rows all have the same
    positive width. *)
Lemma column0_rectangular (rows : list (list Q)) (n : nat) :
  rows <> [] -> Forall (fun r => length r = S n) rows ->
  exists col, column0 rows = Ok col /\ col <> [] /\
    forall j, col !! j = rows !! j ≫= head.
Proof.
  intros Hne Hall. unfold column0.
  destruct rows as [|r0 rows']; [done|]. set (rows := r0 :: rows') in *.
  assert (forallb (fun r => length r =? length r0) rows = true) as ->.
  { apply forallb_forall. intros r Hr%list_elem_of_In.
    rewrite Forall_forall in Hall.
    rewrite (Hall r Hr), (Hall r0) by (subst rows; left). apply Nat.eqb_refl. }
  assert (exists col, mapM head rows = Some col /\
            forall j, col !! j = rows !! j ≫= head) as (col & -> & Hcol).
  { clearbody rows. clear Hne. induction rows as [|x rows IH]; [by exists []|].
    apply Forall_cons in Hall as [Hx Hall].
    destruct (IH Hall) as (col & Hmap & Hcol).
    destruct x as [|f fs]; [done|].
    exists (f :: col). split.
    - cbn. cbn in Hmap. by rewrite Hmap.
    - intros [|j]; simpl; [done | apply Hcol]. }
  exists col. split; [done|]. split; [|done].
  intros ->. specialize (Hcol 0). subst rows. simpl in Hcol.
  apply Forall_cons in Hall as [Hx _]. by destruct r0.
Qed.

(** X1: [func_select_by_objective] raises IndexError on an empty
    population; on a population with at least one individual whose
    objective vectors all have the same positive length it returns the
    position of the first individual with the least first objective. *)
Theorem func_select_by_objective_first_least (pop : Population) (n : nat) :
  (pop = [] -> func_select_by_objective pop = Raise IndexError) /\
  (pop <> [] -> Forall (fun i => length (F i) = S n) pop ->
   exists m best f,
     func_select_by_objective pop = Ok m /\
     pop !! m = Some best /\ head (F best) = Some f /\
     forall j other g,
       pop !! j = Some other -> head (F other) = Some g ->
       (f <= g)%Q /\ (j < m -> (f < g)%Q)).
Proof.
  split; [by intros ->|].
  intros Hne Hall. unfold func_select_by_objective.
  destruct (column0_rectangular (map F pop) n) as (col & -> & Hcne & Hcol).
  { by destruct pop. }
  { rewrite map_is_fmap. by apply Forall_fmap. }
  assert (forall j, col !! j = pop !! j ≫= fun i => head (F i)) as Hcol'.
  { intros j. rewrite Hcol, map_is_fmap, list_lookup_fmap. by destruct (pop !! j). }
  destruct (np_argmin_spec col Hcne) as (m & v & -> & Hm & Hleast).
  rewrite Hcol' in Hm. destruct (pop !! m) as [best|] eqn:Hbest; [|done].
  exists m, best, v. split; [done|]. split; [done|]. split; [done|].
  intros j other g Hj Hg. apply Hleast. by rewrite Hcol', Hj.
Qed.

Lemma func_select_by_objective_first_least_witness :
  Example.pop1 <> [] /\ Forall (fun i => length (F i) = 1) Example.pop1 /\
  exists m best f,
    func_select_by_objective Example.pop1 = Ok m /\
    Example.pop1 !! m = Some best /\ head (F best) = Some f /\
    forall j other g,
      Example.pop1 !! j = Some other -> head (F other) = Some g ->
      (f <= g)%Q /\ (j < m -> (f < g)%Q).
Proof.
  assert (Example.pop1 <> []) as Hne by discriminate.
  assert (Forall (fun i => length (F i) = 1) Example.pop1) as Hall
    by (repeat constructor).
  split; [exact Hne|]. split; [exact Hall|].
  exact (proj2 (func_select_by_objective_first_least Example.pop1 0) Hne Hall).
Defined.

(** X2: in every state an object can reach, [remaining()] returns exactly
    the positions below [n] at which the mask is false, each once, in
    strictly ascending order. *)
Theorem remaining_ascending_uncleared (D : list (list Q)) (eps : Q) (cs : list op) :
  let o := run_ops (init D eps) cs in
  exists r,
    remaining o = (Ok r, o) /\
    (forall j, j ∈ r <-> j < length D /\ self_C o !! j = Some false) /\
    (forall p q a b, p < q -> r !! p = Some a -> r !! q = Some b -> a < b).
Proof.
  intros o. destruct (run_ops_consistent D eps cs) as [_ _ _ HC _]. fold o in HC.
  exists (np_where (map negb (self_C o))). split; [done|]. split.
  - intros j. rewrite elem_of_where_not. split; [|by intros [_ ?]].
    intros Hj. split; [|done]. apply lookup_lt_Some in Hj. lia.
  - intros p q a b. apply where_from_ascending.
Qed.

(** X3: in every state an object can reach, [has_remaining()] answers true
    exactly if [remaining()] is not empty. *)
Theorem has_remaining_iff_remaining (D : list (list Q)) (eps : Q) (cs : list op) :
  let o := run_ops (init D eps) cs in
  exists b r,
    has_remaining o = (Ok b, o) /\ remaining o = (Ok r, o) /\
    (b = true <-> r <> []).
Proof.
  intros o. destruct (run_ops_consistent D eps cs) as [_ _ Hn HC _]. fold o in Hn, HC.
  eexists _, _. split; [reflexivity|]. split; [reflexivity|].
  rewrite where_not_nil, <- count_true_full, HC, Hn.
  rewrite negb_true_iff, Nat.eqb_neq. done.
Qed.

Lemma run_ops_selected_grows (o : EpsilonClearing) (cs : list op) (k : nat) :
  k ∈ self_S o -> k ∈ self_S (run_ops o cs) /\ self_n (run_ops o cs) = self_n o.
Proof.
  revert o. induction cs as [|c cs IH]; intros o Hk; [done|].
  unfold run_ops in *. simpl.
  assert (k ∈ self_S (run_op o c) /\ self_n (run_op o c) = self_n o) as [Hk' Hn'].
  { destruct c; simpl; try done.
    - rewrite select_unfold. cbv zeta.
      assert (k ∈ self_S o ++ [k0]) by (apply elem_of_app; auto).
      destruct (decide _); [|done]. destruct (self_D o !! k0); [|done].
      destruct (decide _); done.
    - rewrite reset_unfold. by destruct (decide _). }
  destruct (IH _ Hk') as [? Hn]. split; [done|]. by rewrite Hn.
Qed.

(** X4: after any sequence of operations in which every selected position
    is a position of the mask, no selected position is in [remaining()],
    resets included. *)
Theorem selected_never_remaining (D : list (list Q)) (eps : Q) (cs : list op) :
  let o := run_ops (init D eps) cs in
  Forall (fun k => k < self_n o) (self_S o) ->
  exists r, remaining o = (Ok r, o) /\ forall k, k ∈ self_S o -> k ∉ r.
Proof.
  intros o Hall. destruct (run_ops_consistent D eps cs) as [_ _ _ _ HS]. fold o in HS.
  eexists. split; [reflexivity|]. intros k Hk.
  rewrite elem_of_where_not, (HS Hall k Hk). done.
Qed.

Lemma selected_never_remaining_witness :
  let o := run_ops (init Example.two_points (1 # 4))
             [OpSelect 0; OpReset; OpSelect 1; OpReset] in
  Forall (fun k => k < self_n o) (self_S o) /\
  exists r, remaining o = (Ok r, o) /\ forall k, k ∈ self_S o -> k ∉ r.
Proof.
  intros o.
  assert (Forall (fun k => k < self_n o) (self_S o)) as Hall
    by (repeat constructor).
  split; [exact Hall|].
  exact (selected_never_remaining Example.two_points (1 # 4)
           [OpSelect 0; OpReset; OpSelect 1; OpReset] Hall).
Defined.

(** X5: [select(k)] with [k] not a position of the matrix raises
    IndexError, but only after appending [k] to [S]; the mask is left as it
    was, and from then on every [reset()] raises IndexError, whatever is
    called in between. *)
Theorem select_out_of_range_poisons (D : list (list Q)) (eps : Q) (cs : list op) (k : nat) :
  let o := run_ops (init D eps) cs in
  length D <= k ->
  exists o',
    select k o = (Raise IndexError, o') /\
    self_S o' = self_S o ++ [k] /\
    self_C o' = self_C o /\
    forall cs', fst (reset (run_ops o' cs')) = Raise IndexError.
Proof.
  intros o Hk. destruct (run_ops_consistent D eps cs) as [_ _ Hn HC _]. fold o in Hn, HC.
  exists (set_S (fun s => s ++ [k]) o).
  split; [|split; [done|split; [done|]]].
  - rewrite select_unfold. cbv zeta. rewrite decide_False by lia. done.
  - intros cs'.
    destruct (run_ops_selected_grows (set_S (fun s => s ++ [k]) o) cs' k) as [Hin Hn'].
    { simpl. apply elem_of_app. right. by apply list_elem_of_singleton. }
    rewrite reset_unfold. rewrite decide_False; [done|].
    intros Hall. rewrite Forall_forall in Hall. specialize (Hall k Hin).
    rewrite Hn' in Hall. simpl in Hall. lia.
Qed.

Lemma select_out_of_range_poisons_witness :
  length Example.two_points <= 5 /\
  exists o',
    select 5 (run_ops (init Example.two_points 1) [OpSelect 0]) = (Raise IndexError, o') /\
    self_S o' = [0; 5] /\
    self_C o' = [true; true] /\
    forall cs', fst (reset (run_ops o' cs')) = Raise IndexError.
Proof.
  assert (length Example.two_points <= 5) as Hk by (simpl; lia).
  split; [exact Hk|].
  exact (select_out_of_range_poisons Example.two_points 1 [OpSelect 0] 5 Hk).
Defined.

End ClearingExtras.

Section ClearingLoopExtras.
Import Clearing.

Lemma func_select_by_objective_not_cut_off (p : Population) :
  func_select_by_objective p <> OutOfFuel.
Proof.
  unfold func_select_by_objective, column0.
  destruct (map F p) as [|r0 rows]; [done|].
  destruct (forallb _ _); [|done].
  destruct (mapM head _) as [[|x col]|]; done.
Qed.

(** X6: the loop of [select_by_clearing] ends: from any state of the
    object, once the bound on the runs of its body covers the positions still
    to be selected, the loop returns or raises, whatever the scoring function
    returns or raises; the whole call does so within [n_select] runs. *)
Theorem select_by_clearing_terminates (pop : Population) (D : list (list Q))
    (n_select : nat) (func_select : Population -> outcome nat) (eps : Q) :
  (forall p, func_select p <> OutOfFuel) ->
  (forall fuel o,
     n_select <= length (self_S o) + fuel ->
     fst (select_loop fuel pop n_select func_select o) <> OutOfFuel) /\
  fst (select_by_clearing pop D n_select func_select eps) <> OutOfFuel.
Proof.
  intros Hf. split.
  - intros fuel o Hle. by apply select_loop_enough_fuel.
  - by apply select_by_clearing_not_cut_off.
Qed.

Lemma select_by_clearing_terminates_witness :
  (forall p, func_select_by_objective p <> OutOfFuel) /\
  fst (select_by_clearing Example.two_pop Example.two_points 2
         func_select_by_objective 1) <> OutOfFuel.
Proof.
  split; [exact func_select_by_objective_not_cut_off|].
  exact (proj2 (select_by_clearing_terminates Example.two_pop Example.two_points 2
                  func_select_by_objective 1 func_select_by_objective_not_cut_off)).
Defined.

Lemma picked_from_pool_init D eps : picked_from_pool D eps (init D eps).
Proof.
  split; simpl.
  - apply init_consistent.
  - intros a Ha. by apply elem_of_nil in Ha.
  - intros a row j d Ha. by apply elem_of_nil in Ha.
  - constructor.
  - intros i j a b row d _ Hi. by rewrite lookup_nil in Hi.
  - constructor.
Qed.

(** A successful [select] of an uncleared position keeps the selection
    separated. *)
Lemma picked_from_pool_select D eps o k o' :
  picked_from_pool D eps o ->
  self_C o !! k = Some false ->
  select k o = (Ok tt, o') ->
  picked_from_pool D eps o' /\ self_S o' = self_S o ++ [k].
Proof.
  intros [Hcons Hmark Hclear Hnd Hsep Hrange] Hk Hsel.
  pose proof (select_consistent D eps o k Hcons) as Hcons'.
  rewrite Hsel in Hcons'. simpl in Hcons'.
  destruct Hcons as [HD He Hn HC _].
  rewrite select_unfold in Hsel. cbv zeta in Hsel.
  destruct (decide (k < length (self_C o))) as [Hlt|]; [|done].
  destruct (self_D o !! k) as [row|] eqn:Hrow; [|done].
  destruct (decide _) as [Hlen|]; [|done].
  injection Hsel as <-. rewrite length_map in Hlen.
  set (c1 := <[k := true]> (self_C o)) in *.
  set (mask := map (fun d => Qltb d (self_epsilon o)) row) in *.
  assert (forall j, c1 !! j = Some true -> zip_with orb c1 mask !! j = Some true) as Hzip.
  { intros j Hj. rewrite lookup_zip_with, Hj. simpl.
    destruct (mask !! j) as [b|] eqn:Hb; [done|].
    apply lookup_ge_None in Hb. apply lookup_lt_Some in Hj.
    unfold c1, mask in *. rewrite length_insert in Hj.
    rewrite length_map in Hb. lia. }
  assert (forall j, self_C o !! j = Some true -> c1 !! j = Some true) as Hins.
  { intros j Hj. unfold c1. destruct (decide (k = j)) as [->|].
    - by rewrite list_lookup_insert_eq.
    - by rewrite list_lookup_insert_ne. }
  assert (k ∉ self_S o) as Hfresh.
  { intros Hin. specialize (Hmark k Hin). congruence. }
  split; [|done]. split; simpl.
  - done.
  - intros a [Ha | ->%list_elem_of_singleton]%elem_of_app.
    + by apply Hzip, Hins, Hmark.
    + apply Hzip. unfold c1. by rewrite list_lookup_insert_eq.
  - intros a row' j d [Ha | ->%list_elem_of_singleton]%elem_of_app Hrow' Hd Hlt' Hj.
    + by eapply Hzip, Hins, Hclear.
    + rewrite <- HD, Hrow in Hrow'. injection Hrow' as <-.
      rewrite lookup_zip_with. unfold mask.
      rewrite map_is_fmap, list_lookup_fmap, Hd. simpl. rewrite He, Hlt'.
      destruct (c1 !! j) as [b|] eqn:Hb; simpl; [by rewrite orb_true_r|].
      apply lookup_ge_None in Hb. unfold c1 in Hb. rewrite length_insert in Hb. lia.
  - apply NoDup_app. split; [done|]. split; [|apply NoDup_singleton].
    intros x Hx ->%list_elem_of_singleton. done.
  - intros i j a b row' d Hij Hi Hj Hrow' Hd.
    apply lookup_app_Some in Hj as [Hj | [Hge Hj]].
    + rewrite lookup_app_l in Hi by (apply lookup_lt_Some in Hj; lia).
      by eapply Hsep.
    + apply list_lookup_singleton_Some in Hj as [Hj0 <-].
      rewrite lookup_app_l in Hi by lia.
      destruct (Qltb d eps) eqn:Hlt'; [|done].
      assert (self_C o !! k = Some true); [|congruence].
      eapply Hclear; [by eapply list_elem_of_lookup_2 | done | done | done | lia].
  - apply Forall_app. split; [done|]. apply Forall_singleton. lia.
Qed.

(** In a run of the loop that returns, every pick came from a pool that was
    not empty, so no reset has happened. *)
Lemma select_loop_Ok_inv D eps pop n_select func_select fuel o o' :
  picked_from_pool D eps o ->
  select_loop fuel pop n_select func_select o = (Ok tt, o') ->
  picked_from_pool D eps o' /\
  (length (self_S o) <= n_select -> length (self_S o') = n_select).
Proof.
  revert o. induction fuel as [|fuel IH]; intros o Hinv Hrun.
  - simpl in Hrun. unfold bind, selected, gets in Hrun.
    destruct (length (self_S o) <? n_select) eqn:Hlt; [done|].
    injection Hrun as <-. apply Nat.ltb_ge in Hlt. split; [done | lia].
  - rewrite select_loop_step in Hrun.
    apply bind_Ok in Hrun as (S_ & ? & [= <- <-] & Hrun).
    destruct (length (self_S o) <? n_select) eqn:Hlt.
    + apply Nat.ltb_lt in Hlt.
      apply bind_Ok in Hrun as (r & ? & [= <- <-] & Hrun).
      apply bind_Ok in Hrun as ([] & o1 & Hreset & Hrun).
      apply bind_Ok in Hrun as (sub & ? & [= Htake <-] & Hrun).
      apply bind_Ok in Hrun as (i & ? & [= Hf <-] & Hrun).
      apply bind_Ok in Hrun as (best & ? & [= Hbest <-] & Hrun).
      apply bind_Ok in Hrun as ([] & o2 & Hsel & Hrun).
      unfold getitem in Hbest.
      destruct (np_where (map negb (self_C o)) !! i) as [best'|] eqn:Hi; [|done].
      injection Hbest as ->.
      assert (o1 = o) as ->.
      { destruct (np_where (map negb (self_C o))) as [|x r]; [done|].
        simpl in Hreset. by injection Hreset as <-. }
      apply list_elem_of_lookup_2, elem_of_where_not in Hi.
      destruct (picked_from_pool_select D eps o best o2 Hinv Hi Hsel) as [Hinv2 HS2].
      destruct (IH o2 Hinv2 Hrun) as [Hinv' Hlen'].
      split; [done|]. intros _. apply Hlen'.
      rewrite HS2, length_app. simpl. lia.
    + injection Hrun as <-. apply Nat.ltb_ge in Hlt. split; [done | lia].
Qed.

Lemma select_by_clearing_Ok_inv pop D n_select func_select eps l o :
  select_by_clearing pop D n_select func_select eps = (Ok l, o) ->
  l = self_S o /\ length l = n_select /\ picked_from_pool D eps o.
Proof.
  unfold select_by_clearing. intros Hrun.
  apply bind_Ok in Hrun as ([] & o' & Hloop & [= <- <-]).
  destruct (select_loop_Ok_inv D eps pop n_select func_select n_select
              (init D eps) o' (picked_from_pool_init D eps) Hloop) as [Hinv Hlen].
  split; [done|]. split; [apply Hlen; simpl; lia | done].
Qed.

(** X7: whenever [select_by_clearing] returns, it returns exactly
    [n_select] positions of the matrix, all different, and none of them is
    within [eps] of one selected before it. *)
Theorem select_by_clearing_result (pop : Population) (D : list (list Q))
    (n_select : nat) (func_select : Population -> outcome nat) (eps : Q) l o :
  select_by_clearing pop D n_select func_select eps = (Ok l, o) ->
  length l = n_select /\
  Forall (fun k => k < length D) l /\
  NoDup l /\
  forall i j a b row d,
    i < j -> l !! i = Some a -> l !! j = Some b ->
    D !! a = Some row -> row !! b = Some d -> ~ (d < eps)%Q.
Proof.
  intros Hrun.
  apply select_by_clearing_Ok_inv in Hrun as (-> & Hlen & [_ _ _ Hnd Hsep Hrange]).
  split; [done|]. split; [done|]. split; [done|].
  intros i j a b row d Hij Hi Hj Hrow Hd Hlt.
  apply Qltb_lt in Hlt. rewrite (Hsep i j a b row d) in Hlt; done.
Qed.

Lemma select_by_clearing_result_witness :
  let D := replicate 5 (replicate 5 (10 : Q)) in
  let pop :=
    [Example.ind [3] true; Example.ind [1] true; Example.ind [4] true;
     Example.ind [0] true; Example.ind [2] true]%Q in
  exists o,
    select_by_clearing pop D 3 func_select_by_objective (5 # 100) = (Ok [3; 1; 4], o) /\
    length [3; 1; 4] = 3 /\
    Forall (fun k => k < length D) [3; 1; 4] /\
    NoDup [3; 1; 4].
Proof.
  intros D pop.
  destruct (select_by_clearing pop D 3 func_select_by_objective (5 # 100))
    as [[l| |] o] eqn:Hrun; [|vm_compute in Hrun; discriminate Hrun..].
  assert (l = [3; 1; 4]) as -> by (vm_compute in Hrun; congruence).
  exists o. split; [reflexivity|].
  destruct (select_by_clearing_result pop D 3 func_select_by_objective (5 # 100)
              [3; 1; 4] o Hrun) as (H1 & H2 & H3 & _).
  split; [exact H1|]. split; [exact H2 | exact H3].
Defined.

(** X8: asking for more positions than the matrix has never returns: the
    call raises (or the scoring function does not return). *)
Theorem select_by_clearing_too_many (pop : Population) (D : list (list Q))
    (n_select : nat) (func_select : Population -> outcome nat) (eps : Q) l o :
  length D < n_select ->
  select_by_clearing pop D n_select func_select eps <> (Ok l, o).
Proof.
  intros Hmany Hrun.
  apply select_by_clearing_Ok_inv in Hrun as (-> & Hlen & [_ _ _ Hnd _ Hrange]).
  pose proof (bounded_nodup_length _ _ Hnd Hrange). lia.
Qed.

Lemma select_by_clearing_too_many_witness :
  length (replicate 2 (replicate 2 (10 : Q))) < 3 /\
  forall l o,
    select_by_clearing Example.two_pop (replicate 2 (replicate 2 (10 : Q))) 3
      func_select_by_objective (5 # 100) <> (Ok l, o).
Proof.
  assert (length (replicate 2 (replicate 2 (10 : Q))) < 3) as Hmany by (simpl; lia).
  split; [exact Hmany|]. intros l o.
  exact (select_by_clearing_too_many Example.two_pop _ 3 func_select_by_objective
           (5 # 100) l o Hmany).
Defined.

End ClearingLoopExtras.

Section ClearingProgress.
Import Clearing.







End ClearingProgress.

(** ** The monad: properties kept whatever the outcome *)

Lemma preserves_bind {St A B} (Q : St -> Prop) (m : M St A) (k : A -> M St B) :
  preserves Q m -> (forall a, preserves Q (k a)) -> preserves Q (bind m k).
Proof.
  intros Hm Hk s r s' HQ. unfold bind.
  destruct (m s) as [[a| |] s1] eqn:Hrun.
  - apply (Hk a). by eapply Hm.
  - intros [= <- <-]. by eapply Hm.
  - intros [= <- <-]. by eapply Hm.
Qed.

(** ... and properties kept by the runs that return. *)
Lemma preserves_ok_weaken {St A} (Q : St -> Prop) (m : M St A) :
  preserves Q m -> preserves_ok Q m.
Proof. intros Hm s a s' HQ Hrun. by eapply Hm. Qed.

Lemma preserves_ok_bind {St A B} (Q : St -> Prop) (m : M St A) (k : A -> M St B) :
  preserves_ok Q m -> (forall a, preserves_ok Q (k a)) -> preserves_ok Q (bind m k).
Proof.
  intros Hm Hk s b s' HQ Hrun.
  apply bind_Ok in Hrun as (a & s1 & Hrun1 & Hrun2).
  apply (Hk a s1 b s'); [|done]. by eapply Hm.
Qed.

Lemma preserves_pure {St A} (Q : St -> Prop) (r : outcome A) :
  preserves Q (lift r : M St A).
Proof. by intros s r' s' HQ [= <- <-]. Qed.

Lemma preserves_gets {St A} (Q : St -> Prop) (f : St -> A) : preserves Q (gets f).
Proof. by intros s r' s' HQ [= <- <-]. Qed.

(** ** Strings *)

Lemma length_string_app (s1 s2 : string) :
  String.length (s1 ++ s2) = String.length s1 + String.length s2.
Proof. induction s1 as [|c s1 IH]; simpl; [done | by rewrite IH]. Qed.

Lemma length_string_repeat (c : ascii) (n : nat) :
  String.length (string_of_list_ascii (repeat c n)) = n.
Proof. induction n as [|n IH]; simpl; [done | by rewrite IH]. Qed.

Lemma length_string_concat (sep : string) (cols : list string) :
  String.length (String.concat sep cols) =
  list_sum (map String.length cols) + String.length sep * (length cols - 1).
Proof.
  induction cols as [|x cols IH]; [simpl; lia|].
  destruct cols as [|y cols]; [simpl; lia|].
  change (String.concat sep (x :: y :: cols))
    with (x ++ sep ++ String.concat sep (y :: cols))%string.
  rewrite !length_string_app, IH. simpl. lia.
Qed.

Section DriverExtras.
Import Driver.
Context `{Hooks}.

Lemma length_ljust (s : string) (width : nat) :
  String.length (ljust s width) = Nat.max (String.length s) width.
Proof. unfold ljust. rewrite length_string_app, length_string_repeat. lia. Qed.

(** X10: [_display] leaves the object alone and prints one row of values,
    after a banner of 70 equals signs, a row of names and the banner again
    when [header] is set; if every name and value fits its column, the row
    of names and the row of values have the same length: the widths plus
    three characters between neighbouring columns. *)
Theorem display_rows_aligned (d : disp) (header : bool) (w : World) :
  fits_columns d ->
  exists names_row values_row,
    _display d header w =
      (Ok tt,
       {| alg := alg w;
          trace := trace w ++
            (if header then [EvPrint banner; EvPrint names_row; EvPrint banner]
             else []) ++ [EvPrint values_row] |}) /\
    String.length banner = 70 /\
    String.length names_row = row_width d /\
    String.length values_row = row_width d.
Proof.
  intros Hfit.
  exists (join_bar (map (fun '(name, _, width) => ljust name width) d)),
         (join_bar (map (fun '(_, val, width) => ljust val width) d)).
  split; [|split; [apply length_string_repeat|]].
  - unfold _display, bind, log, modify, ret. destruct header; simpl.
    + by rewrite <- !app_assoc.
    + done.
  - unfold join_bar, row_width. rewrite !length_string_concat, !length_map.
    change (String.length " | ") with 3.
    assert (list_sum (map String.length
                        (map (fun '(name, _, width) => ljust name width) d)) =
            list_sum (map (fun '(_, _, width) => width) d)) as ->.
    { induction Hfit as [|[[name val] width] d' [Hn Hv] Hfit IH]; [done|].
      simpl. rewrite IH, length_ljust. lia. }
    assert (list_sum (map String.length
                        (map (fun '(_, val, width) => ljust val width) d)) =
            list_sum (map (fun '(_, _, width) => width) d)) as ->.
    { induction Hfit as [|[[name val] width] d' [Hn Hv] Hfit IH]; [done|].
      simpl. rewrite IH, length_ljust. lia. }
    done.
Qed.

(** *** Properties of the object that a run keeps, whatever its outcome *)

Lemma preserves_unchanged {A} (Q : World -> Prop) (m : M World A) :
  (forall w, snd (m w) = w) -> preserves Q m.
Proof.
  intros Hm w r w' HQ Hrun. specialize (Hm w). rewrite Hrun in Hm.
  simpl in Hm. by subst w'.
Qed.

Lemma preserves_self {A} (Q : World -> Prop) (f : Algorithm -> A) :
  preserves Q (self f).
Proof. by apply preserves_unchanged. Qed.

Lemma preserves_deref {A} (Q : World -> Prop) (f : Algorithm -> option A) :
  preserves Q (deref f).
Proof.
  apply preserves_unchanged. intros w. unfold deref, bind, self, gets.
  by destruct (f (alg w)).
Qed.

Lemma deepcopy_state w : snd (deepcopy w) = w.
Proof.
  unfold deepcopy, bind, self, gets, raise, ret.
  by destruct (deepcopy_raises _).
Qed.

Lemma preserves_deepcopy (Q : World -> Prop) : preserves Q deepcopy.
Proof. apply preserves_unchanged, deepcopy_state. Qed.

(** The skeleton of the generation loop keeps whatever its steps keep. *)
Lemma solve_loop_preserves (Q : World -> Prop) (fuel : nat) :
  (forall g, preserves Q (setattr (set_n_gen g))) ->
  (forall p, preserves Q (setattr (set_pop p))) ->
  preserves Q next ->
  (forall t, preserves Q (invoke (fun r => EvDoContinue (answer_of r)) (do_continue t))) ->
  (forall first, preserves Q (_each_iteration first)) ->
  preserves Q (solve_loop fuel).
Proof.
  intros Hgen Hpop Hnext Hcont Hpass.
  induction fuel as [|fuel IH]; simpl.
  - apply preserves_bind; [apply preserves_deref|]. intros t.
    apply preserves_bind; [apply Hcont|]. intros [|]; by apply preserves_unchanged.
  - apply preserves_bind; [apply preserves_deref|]. intros t.
    apply preserves_bind; [apply Hcont|]. intros [|]; [|by apply preserves_unchanged].
    apply preserves_bind; [apply preserves_deref|]. intros g.
    apply preserves_bind; [apply Hgen|]. intros _.
    apply preserves_bind; [apply Hnext|]. intros p.
    apply preserves_bind; [apply Hpop|]. intros _.
    apply preserves_bind; [apply Hpass|]. intros _. apply IH.
Qed.

Lemma _solve_preserves (Q : World -> Prop) (fuel : nat) problem_ :
  (forall g, preserves Q (setattr (set_n_gen g))) ->
  (forall p, preserves Q (setattr (set_pop p))) ->
  preserves Q initialize ->
  preserves Q next ->
  preserves Q finalize ->
  (forall t, preserves Q (invoke (fun r => EvDoContinue (answer_of r)) (do_continue t))) ->
  (forall first, preserves Q (_each_iteration first)) ->
  preserves Q (_solve fuel problem_).
Proof.
  intros Hgen Hpop Hinit Hnext Hfin Hcont Hpass. unfold _solve.
  apply preserves_bind; [apply preserves_self|]. intros [t|];
    [|by apply preserves_unchanged].
  apply preserves_bind; [apply Hgen|]. intros _.
  apply preserves_bind; [apply Hinit|]. intros p.
  apply preserves_bind; [apply Hpop|]. intros _.
  apply preserves_bind; [apply Hpass|]. intros _.
  apply preserves_bind; [by apply solve_loop_preserves|]. intros _.
  apply preserves_bind; [apply Hfin|]. intros _.
  apply preserves_deref.
Qed.

(** The same for the runs that return. *)
Lemma solve_loop_preserves_ok (Q : World -> Prop) (fuel : nat) :
  (forall g, preserves_ok Q (setattr (set_n_gen g))) ->
  (forall p, preserves_ok Q (setattr (set_pop p))) ->
  preserves_ok Q next ->
  (forall t, preserves_ok Q (invoke (fun r => EvDoContinue (answer_of r)) (do_continue t))) ->
  (forall first, preserves_ok Q (_each_iteration first)) ->
  preserves_ok Q (solve_loop fuel).
Proof.
  intros Hgen Hpop Hnext Hcont Hpass.
  assert (forall A (f : Algorithm -> option A), preserves_ok Q (deref f)) as Hderef
    by (intros; apply preserves_ok_weaken, preserves_deref).
  induction fuel as [|fuel IH]; simpl.
  - apply preserves_ok_bind; [apply Hderef|]. intros t.
    apply preserves_ok_bind; [apply Hcont|].
    intros [|]; by apply preserves_ok_weaken, preserves_unchanged.
  - apply preserves_ok_bind; [apply Hderef|]. intros t.
    apply preserves_ok_bind; [apply Hcont|].
    intros [|]; [|by apply preserves_ok_weaken, preserves_unchanged].
    apply preserves_ok_bind; [apply Hderef|]. intros g.
    apply preserves_ok_bind; [apply Hgen|]. intros _.
    apply preserves_ok_bind; [apply Hnext|]. intros p.
    apply preserves_ok_bind; [apply Hpop|]. intros _.
    apply preserves_ok_bind; [apply Hpass|]. intros _. apply IH.
Qed.

Lemma _solve_preserves_ok (Q : World -> Prop) (fuel : nat) problem_ :
  (forall g, preserves_ok Q (setattr (set_n_gen g))) ->
  (forall p, preserves_ok Q (setattr (set_pop p))) ->
  preserves_ok Q initialize ->
  preserves_ok Q next ->
  preserves_ok Q finalize ->
  (forall t, preserves_ok Q (invoke (fun r => EvDoContinue (answer_of r)) (do_continue t))) ->
  (forall first, preserves_ok Q (_each_iteration first)) ->
  preserves_ok Q (_solve fuel problem_).
Proof.
  intros Hgen Hpop Hinit Hnext Hfin Hcont Hpass. unfold _solve.
  apply preserves_ok_bind; [apply preserves_ok_weaken, preserves_self|].
  intros [t|]; [|by apply preserves_ok_weaken, preserves_unchanged].
  apply preserves_ok_bind; [apply Hgen|]. intros _.
  apply preserves_ok_bind; [apply Hinit|]. intros p.
  apply preserves_ok_bind; [apply Hpop|]. intros _.
  apply preserves_ok_bind; [apply Hpass|]. intros _.
  apply preserves_ok_bind; [by apply solve_loop_preserves_ok|]. intros _.
  apply preserves_ok_bind; [apply Hfin|]. intros _.
  apply preserves_ok_weaken, preserves_deref.
Qed.

Lemma solve_extract_state problem_ pf_ pop_ w r w' :
  solve_extract problem_ pf_ pop_ w = (r, w') -> w' = w.
Proof.
  destruct (optimal_candidates (alg w) pop_) as [|c cands] eqn:Hcand;
    [rewrite solve_extract_no_candidates by done; by intros [= _ <-]|].
  rewrite solve_extract_unfold by (by rewrite Hcand). cbv zeta.
  destruct (optimal_pool _ _) as [|x pool]; [by intros [= _ <-]|].
  destruct (1 <? n_obj problem_).
  - destruct (nds_do _) as [front_I| |]; [|by intros [= _ <-]..].
    destruct (take _ _) as [front| |]; by intros [= _ <-].
  - destruct (np_argmin _) as [i| |]; [|by intros [= _ <-]..].
    destruct (_ !! i); by intros [= _ <-].
Qed.

(** *** The history holds nulled snapshots only *)

Lemma setattr_history_of_nulled (f : Algorithm -> Algorithm) :
  (forall a, history (f a) = history a) ->
  preserves history_of_nulled (setattr f).
Proof.
  intros Hf w r w' (h & Hh & Hall) [= _ <-]. exists h. simpl. by rewrite Hf.
Qed.

Lemma invoke_history_of_nulled {A} (ev : outcome A -> Event) (h : M Algorithm A) :
  keeps_bookkeeping h -> preserves history_of_nulled (invoke ev h).
Proof.
  intros Hk w r w' (hl & Hh & Hall). unfold invoke.
  destruct (Hk (alg w)) as [Hkeep _]. destruct (h (alg w)) as [r' a'].
  intros [= _ <-]. exists hl. simpl in *. by rewrite Hkeep.
Qed.

Lemma display_history_of_nulled d header :
  preserves history_of_nulled (_display d header).
Proof.
  intros w r w' HQ. unfold _display, bind, log, modify, ret.
  destruct header; simpl; by intros [= _ <-].
Qed.

(** A bookkeeping pass that returns has taken its snapshot, if any, of
    the object without history and callback. *)
Lemma each_iteration_history_of_nulled first :
  hooks_keep_bookkeeping ->
  preserves_ok history_of_nulled (_each_iteration first).
Proof.
  intros (_ & _ & _ & _ & Hcb & Hdisp). unfold _each_iteration.
  apply preserves_ok_bind; [apply preserves_ok_weaken, preserves_self|]. intros v.
  apply preserves_ok_bind; [apply preserves_ok_weaken, preserves_self|]. intros fd.
  apply preserves_ok_bind.
  { apply preserves_ok_weaken.
    destruct v; [|by apply preserves_unchanged].
    destruct fd as [f|]; [|by apply preserves_unchanged].
    apply preserves_bind; [by apply invoke_history_of_nulled|].
    intros [d|]; [apply display_history_of_nulled | by apply preserves_unchanged]. }
  intros _. apply preserves_ok_bind; [apply preserves_ok_weaken, preserves_self|].
  intros cb. apply preserves_ok_bind.
  { apply preserves_ok_weaken.
    destruct cb as [c|]; [by apply invoke_history_of_nulled | by apply preserves_unchanged]. }
  intros _. apply preserves_ok_bind; [apply preserves_ok_weaken, preserves_self|].
  intros [|]; [|by apply preserves_ok_weaken, preserves_unchanged].
  intros [[e p tm f o s h vb fd' cb' sh g pp st] tr] r w' (hl & Hh & Hall).
  simpl in Hh. subst h.
  unfold bind, deepcopy, bind, self, setattr, modify, gets, raise, ret. simpl.
  destruct (deepcopy_raises _); [done|]. intros Hrun.
  apply (f_equal snd) in Hrun. simpl in Hrun. subst w'.
  eexists. split; [reflexivity|]. apply Forall_app. split; [done|].
  by apply Forall_singleton.
Qed.

(** A set-up that returns has seeded the generator with an accepted
    seed. *)
Lemma solve_setup_Ok_seed problem_ termination_ seed_ verbose_ callback_
    save_history_ pf_ evaluator_ w u w1 :
  solve_setup problem_ termination_ seed_ verbose_ callback_ save_history_
    pf_ evaluator_ w = (Ok u, w1) ->
  valid_seed (match seed_ with Some s => s | None => randint end) = true.
Proof.
  intros Hrun.
  destruct (valid_seed _) eqn:Hseed; [done|].
  by rewrite solve_setup_bad_seed in Hrun.
Qed.

Lemma solve_setup_history problem_ termination_ seed_ verbose_ callback_
    save_history_ pf_ evaluator_ w r w1 :
  valid_seed (match seed_ with Some s => s | None => randint end) = true ->
  solve_setup problem_ termination_ seed_ verbose_ callback_ save_history_
    pf_ evaluator_ w = (r, w1) ->
  r = Ok tt /\ history (alg w1) = Some [] /\ verbose (alg w1) = verbose_ /\
  callback (alg w1) = callback_ /\
  trace w1 = trace w ++ [EvSeed (match seed_ with Some s => s | None => randint end)].
Proof.
  intros Hseed. destruct w as [[e p t f o s h vb fd cb sh g pp st] tr].
  unfold solve_setup, np_random_seed, bind. rewrite Hseed.
  unfold log, setattr, self, modify, gets, ret.
  destruct evaluator_, termination_; simpl; by intros [= <- <-].
Qed.

(** X12: if the hooks leave the driver's bookkeeping alone, then whenever
    [solve] returns, the history of the object is a list of snapshots that
    each carry no history and no callback of their own, and that list is
    the history of the result.  (A run in which a deep copy raises ends
    with the history unset.) *)
Theorem history_snapshots_nulled fuel problem_ termination_ seed_ verbose_
    callback_ save_history_ pf_ evaluator_ w res w' :
  hooks_keep_bookkeeping ->
  solve fuel problem_ termination_ seed_ verbose_ callback_ save_history_
    pf_ evaluator_ w = (Ok res, w') ->
  exists h,
    history (alg w') = Some h /\
    Forall (fun s => history s = None /\ callback s = None) h /\
    res_history res = Some h.
Proof.
  intros Hk Hrun. pose proof Hk as (Hinit & Hnext & Hfin & Hcont & _ & _).
  unfold solve in Hrun.
  apply bind_Ok in Hrun as (u & w1 & Hsetup & Hrun).
  pose proof (solve_setup_Ok_seed _ _ _ _ _ _ _ _ _ _ _ Hsetup) as Hseed.
  apply (solve_setup_history _ _ _ _ _ _ _ _ _ _ _ Hseed) in Hsetup as (_ & Hh1 & _).
  assert (history_of_nulled w1) as HQ1 by (exists []; by split).
  apply bind_Ok in Hrun as (pop_ & w2 & Hsolve & Hrun).
  assert (history_of_nulled w2) as (h & Hh & Hall).
  { eapply (_solve_preserves_ok history_of_nulled fuel problem_);
      [..|exact HQ1|exact Hsolve].
    - intros g. apply preserves_ok_weaken, setattr_history_of_nulled. by intros [].
    - intros p. apply preserves_ok_weaken, setattr_history_of_nulled. by intros [].
    - by apply preserves_ok_weaken, invoke_history_of_nulled.
    - by apply preserves_ok_weaken, invoke_history_of_nulled.
    - by apply preserves_ok_weaken, invoke_history_of_nulled.
    - intros t. by apply preserves_ok_weaken, invoke_history_of_nulled.
    - intros first. by apply each_iteration_history_of_nulled. }
  apply solve_extract_Ok in Hrun as (-> & -> & _).
  exists h. split; [done|]. split; done.
Qed.

Lemma solve_extract_Ok_fields problem_ pf_ pop_ w res w' :
  solve_extract problem_ pf_ pop_ w = (Ok res, w') ->
  res_problem res = Some problem_ /\ res_pf res = Some pf_ /\
  res_message res = ""%string.
Proof.
  destruct (optimal_candidates (alg w) pop_) as [|c cands] eqn:Hcand;
    [by rewrite solve_extract_no_candidates|].
  rewrite solve_extract_unfold by (by rewrite Hcand). cbv zeta.
  destruct (optimal_pool _ _) as [|x pool]; [by intros [= <- <-]|].
  destruct (1 <? n_obj problem_).
  - destruct (nds_do _) as [front_I| |]; [|done..].
    destruct (take _ _) as [front| |]; [|done..]. by intros [= <- <-].
  - destruct (np_argmin _) as [i| |]; [|done..].
    destruct (_ !! i); [|done]. by intros [= <- <-].
Qed.

(** X13: whenever [solve] returns, the population of the result is the
    object's [pop] attribute as the finalisation left it, the history of the
    result is the object's history, and the problem and the Pareto front of
    the result are the ones passed in; the hooks are free to do anything. *)
Theorem result_reflects_object fuel problem_ termination_ seed_ verbose_
    callback_ save_history_ pf_ evaluator_ w res w' :
  solve fuel problem_ termination_ seed_ verbose_ callback_ save_history_
    pf_ evaluator_ w = (Ok res, w') ->
  res_pop res = pop (alg w') /\
  res_history res = history (alg w') /\
  res_problem res = Some problem_ /\
  res_pf res = Some pf_.
Proof.
  intros Hrun. unfold solve in Hrun.
  apply bind_Ok in Hrun as ([] & w1 & _ & Hrun).
  apply bind_Ok in Hrun as (pop_ & w2 & Hsolve & Hrun).
  pose proof (solve_extract_Ok_fields _ _ _ _ _ _ Hrun) as (Hp & Hf & _).
  apply solve_extract_Ok in Hrun as (-> & Hh & Hpop).
  split; [|done].
  unfold _solve in Hsolve.
  apply bind_Ok in Hsolve as (t & ? & [= <- <-] & Hsolve).
  destruct (termination (alg w1)); [|done].
  apply bind_Ok in Hsolve as (? & ? & _ & Hsolve).
  apply bind_Ok in Hsolve as (? & ? & _ & Hsolve).
  apply bind_Ok in Hsolve as (? & ? & _ & Hsolve).
  apply bind_Ok in Hsolve as (? & ? & _ & Hsolve).
  apply bind_Ok in Hsolve as (? & ? & _ & Hsolve).
  apply bind_Ok in Hsolve as (? & ? & _ & Hsolve).
  apply deref_Ok in Hsolve as [Hlast ->]. by rewrite Hpop, Hlast.
Qed.

(** X11: [_solve] called on an object whose history was never set up (it
    is [None] until [solve] assigns the empty list) while [save_history] is
    set never returns normally: the first bookkeeping pass fails on the
    history. *)
Theorem _solve_needs_history fuel problem_ w pop_ w' :
  hooks_keep_bookkeeping ->
  history (alg w) = None ->
  save_history (alg w) = true ->
  _solve fuel problem_ w <> (Ok pop_, w').
Proof.
  intros Hk Hh Hs Hrun. pose proof Hk as (Hinit & _).
  unfold _solve in Hrun.
  apply bind_Ok in Hrun as (t & ? & [= <- <-] & Hrun).
  destruct (termination (alg w)); [|done].
  apply bind_Ok in Hrun as ([] & w2 & (_ & Ha2 & _)%setattr_inv & Hrun).
  apply bind_Ok in Hrun as (p & w3 & [Hcall3 _]%invoke_Ok & Hrun).
  destruct (Hinit (alg w2)) as (Hh3 & Hs3 & _). rewrite Hcall3 in *. simpl in *.
  apply bind_Ok in Hrun as ([] & w4 & (_ & Ha4 & _)%setattr_inv & Hrun).
  apply bind_Ok in Hrun as ([] & w5 & Hpass & _).
  apply each_iteration_spec in Hpass as (_ & _ & _ & Hh5); [|done].
  assert (history (alg w4) = None /\ save_history (alg w4) = true) as [Hh4 Hs4].
  { rewrite Ha4. destruct (alg w3) eqn:E3. simpl in *.
    rewrite Ha2 in *. destruct (alg w) eqn:E. simpl in *.
    split; congruence. }
  rewrite Hs4 in Hh5. destruct Hh5 as (h & obj & Hsome & _). congruence.
Qed.

(** *** A run that is not verbose *)

Lemma setattr_quiet t0 (f : Algorithm -> Algorithm) :
  (forall a, verbose (f a) = verbose a) ->
  preserves (quiet_since t0) (setattr f).
Proof.
  intros Hf w r w' [Hv Ht] [= _ <-]. split; simpl; [by rewrite Hf | done].
Qed.

Lemma invoke_quiet {A} t0 (ev : outcome A -> Event) (h : M Algorithm A) :
  keeps_attr verbose h ->
  (forall r, is_output (ev r) = false) ->
  preserves (quiet_since t0) (invoke ev h).
Proof.
  intros Hk Hev w r w' [Hv (t & Ht & Hq)]. unfold invoke.
  specialize (Hk (alg w)). destruct (h (alg w)) as [r' a'].
  intros [= _ <-]. unfold quiet_since. simpl in *. split; [congruence|].
  exists (t ++ [ev r']). split; [by rewrite Ht, app_assoc|].
  apply Forall_app. split; [done|]. apply Forall_singleton, Hev.
Qed.

Lemma each_iteration_quiet t0 first :
  hooks_keep verbose ->
  preserves (quiet_since t0) (_each_iteration first).
Proof.
  intros (_ & _ & _ & _ & Hcb & _) w r w' HQ Hrun.
  unfold _each_iteration in Hrun.
  unfold bind at 1 in Hrun. unfold self at 1, gets at 1 in Hrun.
  rewrite (proj1 HQ) in Hrun.
  unfold bind at 1 in Hrun. unfold self at 1, gets at 1 in Hrun.
  unfold bind at 1 in Hrun. unfold ret at 1 in Hrun.
  revert Hrun. apply preserves_bind; [apply preserves_self | | exact HQ]. intros cb.
  apply preserves_bind.
  { destruct cb as [c|]; [by apply invoke_quiet | by apply preserves_unchanged]. }
  intros _. apply preserves_bind; [apply preserves_self|]. intros [|];
    [|by apply preserves_unchanged].
  apply preserves_bind; [apply preserves_self|]. intros hist.
  apply preserves_bind; [apply preserves_self|]. intros _callback.
  apply preserves_bind; [apply setattr_quiet; by intros []|]. intros _.
  apply preserves_bind; [apply setattr_quiet; by intros []|]. intros _.
  apply preserves_bind; [apply preserves_deepcopy|]. intros obj.
  apply preserves_bind; [apply setattr_quiet; by intros []|]. intros _.
  apply preserves_bind; [apply setattr_quiet; by intros []|]. intros _.
  destruct hist; [apply setattr_quiet; by intros [] | by apply preserves_unchanged].
Qed.

(** X14: if the hooks leave [verbose] alone, [_solve] on an object whose
    [verbose] is off never calls the display function and prints nothing,
    whether it returns or raises. *)
Theorem not_verbose_no_output fuel problem_ w r w' :
  hooks_keep verbose ->
  verbose (alg w) = false ->
  _solve fuel problem_ w = (r, w') ->
  exists t,
    trace w' = trace w ++ t /\
    Forall (fun ev => ev <> EvDisplayAttrs /\ forall line, ev <> EvPrint line) t.
Proof.
  intros Hk Hv Hsolve. pose proof Hk as (Hinit & Hnext & Hfin & Hcont & _ & _).
  assert (quiet_since (trace w) w) as HQ.
  { split; [done|]. exists []. split; [by rewrite app_nil_r | done]. }
  assert (quiet_since (trace w) w') as [_ (t & Ht & Hq)].
  { eapply (_solve_preserves (quiet_since (trace w)) fuel problem_);
      [..|exact HQ|exact Hsolve].
    - intros g. apply setattr_quiet. by intros [].
    - intros p. apply setattr_quiet. by intros [].
    - by apply invoke_quiet.
    - by apply invoke_quiet.
    - by apply invoke_quiet.
    - intros tm. by apply invoke_quiet.
    - intros first. by apply each_iteration_quiet. }
  exists t. split; [done|].
  eapply Forall_impl; [exact Hq|]. intros ev Hev.
  split; [by intros -> | by intros line ->].
Qed.

(** *** Attributes the driver installs and the run keeps *)

Lemma setattr_attr {B} (f : Algorithm -> B) (x : B) (g : Algorithm -> Algorithm) :
  (forall a, f (g a) = f a) ->
  preserves (fun w => f (alg w) = x) (setattr g).
Proof. intros Hg w r w' Hf [= _ <-]. simpl. by rewrite Hg. Qed.

Lemma invoke_attr {A B} (f : Algorithm -> B) (x : B) (ev : outcome A -> Event)
    (h : M Algorithm A) :
  keeps_attr f h -> preserves (fun w => f (alg w) = x) (invoke ev h).
Proof.
  intros Hk w r w' Hf. unfold invoke. specialize (Hk (alg w)).
  destruct (h (alg w)) as [r' a']. intros [= _ <-]. simpl in *. congruence.
Qed.

Lemma display_attr {B} (f : Algorithm -> B) (x : B) d header :
  preserves (fun w => f (alg w) = x) (_display d header).
Proof.
  intros w r w' Hf. unfold _display, bind, log, modify, ret.
  destruct header; simpl; by intros [= _ <-].
Qed.

(** The bookkeeping pass keeps every attribute that the hooks keep and
    that assigning [history] or [callback] does not touch. *)
Lemma each_iteration_attr {B} (f : Algorithm -> B) (x : B) first :
  (forall v a, f (set_history v a) = f a) ->
  (forall v a, f (set_callback v a) = f a) ->
  hooks_keep f ->
  preserves (fun w => f (alg w) = x) (_each_iteration first).
Proof.
  intros Hsh Hsc (_ & _ & _ & _ & Hcb & Hdisp). unfold _each_iteration.
  apply preserves_bind; [apply preserves_self|]. intros v.
  apply preserves_bind; [apply preserves_self|]. intros fd.
  apply preserves_bind.
  { destruct v; [|by apply preserves_unchanged].
    destruct fd as [d|]; [|by apply preserves_unchanged].
    apply preserves_bind; [by apply invoke_attr|].
    intros [d'|]; [apply display_attr | by apply preserves_unchanged]. }
  intros _. apply preserves_bind; [apply preserves_self|]. intros cb.
  apply preserves_bind.
  { destruct cb as [c|]; [by apply invoke_attr | by apply preserves_unchanged]. }
  intros _. apply preserves_bind; [apply preserves_self|]. intros [|];
    [|by apply preserves_unchanged].
  apply preserves_bind; [apply preserves_self|]. intros hist.
  apply preserves_bind; [apply preserves_self|]. intros _callback.
  apply preserves_bind; [by apply setattr_attr|]. intros _.
  apply preserves_bind; [by apply setattr_attr|]. intros _.
  apply preserves_bind; [apply preserves_deepcopy|]. intros obj.
  apply preserves_bind; [by apply setattr_attr|]. intros _.
  apply preserves_bind; [by apply setattr_attr|]. intros _.
  destruct hist; [by apply setattr_attr | by apply preserves_unchanged].
Qed.

Lemma solve_attr {B} (f : Algorithm -> B) (x : B) fuel problem_ pf_ :
  (forall v a, f (set_history v a) = f a) ->
  (forall v a, f (set_callback v a) = f a) ->
  (forall v a, f (set_n_gen v a) = f a) ->
  (forall v a, f (set_pop v a) = f a) ->
  hooks_keep f ->
  preserves (fun w => f (alg w) = x)
    (pop_ <- _solve fuel problem_ ;; solve_extract problem_ pf_ pop_).
Proof.
  intros Hsh Hsc Hsg Hsp Hk. pose proof Hk as (Hinit & Hnext & Hfin & Hcont & _ & _).
  apply preserves_bind.
  - apply _solve_preserves; try (intros; by apply setattr_attr);
      try (intros; by apply invoke_attr).
    intros first. by apply each_iteration_attr.
  - intros pop_ w r w' Hf Hrun. by apply solve_extract_state in Hrun as ->.
Qed.

Lemma solve_setup_config problem_ termination_ seed_ verbose_ callback_
    save_history_ pf_ evaluator_ w r w1 :
  valid_seed (match seed_ with Some s => s | None => randint end) = true ->
  solve_setup problem_ termination_ seed_ verbose_ callback_ save_history_
    pf_ evaluator_ w = (r, w1) ->
  r = Ok tt /\
  seed (alg w1) = Some (match seed_ with Some s => s | None => randint end) /\
  evaluator (alg w1) =
    Some (match evaluator_ with Some e => e | None => Evaluator_new end) /\
  problem (alg w1) = Some problem_ /\
  pf (alg w1) = Some pf_ /\
  termination (alg w1) =
    match termination_ with Some t => Some t | None => termination (alg w) end.
Proof.
  intros Hseed. destruct w as [[e p t f o s h vb fd cb sh g pp st] tr].
  unfold solve_setup, np_random_seed, bind. rewrite Hseed.
  unfold log, setattr, self, modify, gets, ret.
  destruct evaluator_, termination_; simpl; by intros [= <- <-].
Qed.

(** X15: if the hooks leave these attributes alone and the seed of the
    run (the one passed, else the one drawn) is one that [np.random.seed]
    accepts, then after [solve], whether it returned or raised, the object
    carries that seed, an evaluator (the one passed, else a fresh one,
    never [None]), the problem and the Pareto front passed, and the
    termination criterion passed, or its own if none was passed. *)
Theorem configuration_stays_installed fuel problem_ termination_ seed_
    verbose_ callback_ save_history_ pf_ evaluator_ w r w' :
  hooks_keep seed -> hooks_keep evaluator -> hooks_keep problem ->
  hooks_keep pf -> hooks_keep termination ->
  valid_seed (match seed_ with Some s => s | None => randint end) = true ->
  solve fuel problem_ termination_ seed_ verbose_ callback_ save_history_
    pf_ evaluator_ w = (r, w') ->
  seed (alg w') = Some (match seed_ with Some s => s | None => randint end) /\
  evaluator (alg w') =
    Some (match evaluator_ with Some e => e | None => Evaluator_new end) /\
  problem (alg w') = Some problem_ /\
  pf (alg w') = Some pf_ /\
  termination (alg w') =
    match termination_ with Some t => Some t | None => termination (alg w) end.
Proof.
  intros Hs He Hp Hf Ht Hseed Hrun. unfold solve in Hrun. unfold bind at 1 in Hrun.
  destruct (solve_setup _ _ _ _ _ _ _ _ w) as [r1 w1] eqn:Hsetup.
  apply solve_setup_config in Hsetup as (-> & Hs1 & He1 & Hp1 & Hf1 & Ht1);
    [|exact Hseed].
  repeat split.
  - eapply (solve_attr seed); [by intros ? []..|done|exact Hs1|exact Hrun].
  - eapply (solve_attr evaluator); [by intros ? []..|done|exact He1|exact Hrun].
  - eapply (solve_attr problem); [by intros ? []..|done|exact Hp1|exact Hrun].
  - eapply (solve_attr pf); [by intros ? []..|done|exact Hf1|exact Hrun].
  - eapply (solve_attr termination); [by intros ? []..|done|exact Ht1|exact Hrun].
Qed.

(** *** The callback survives the snapshots *)

Lemma each_iteration_callback cb first :
  hooks_keep callback ->
  preserves_ok (fun w => callback (alg w) = cb) (_each_iteration first).
Proof.
  intros (_ & _ & _ & _ & Hcb & Hdisp). unfold _each_iteration.
  apply preserves_ok_bind; [apply preserves_ok_weaken, preserves_self|]. intros v.
  apply preserves_ok_bind; [apply preserves_ok_weaken, preserves_self|]. intros fd.
  apply preserves_ok_bind.
  { apply preserves_ok_weaken.
    destruct v; [|by apply preserves_unchanged].
    destruct fd as [d|]; [|by apply preserves_unchanged].
    apply preserves_bind; [by apply invoke_attr|].
    intros [d'|]; [apply display_attr | by apply preserves_unchanged]. }
  intros _. apply preserves_ok_bind; [apply preserves_ok_weaken, preserves_self|].
  intros cb0. apply preserves_ok_bind.
  { apply preserves_ok_weaken.
    destruct cb0 as [c|]; [by apply invoke_attr | by apply preserves_unchanged]. }
  intros _. apply preserves_ok_bind; [apply preserves_ok_weaken, preserves_self|].
  intros [|]; [|by apply preserves_ok_weaken, preserves_unchanged].
  intros [[e p tm f o s h vb fd' cb' sh g pp st] tr] r w' Hc.
  unfold bind, deepcopy, bind, self, setattr, modify, gets, raise, ret. simpl in *.
  destruct (deepcopy_raises _); [done|].
  destruct h; [|done]. intros Hrun.
  apply (f_equal snd) in Hrun. simpl in Hrun. by subst w'.
Qed.

(** X16: if the hooks leave [callback] alone, then whenever [solve]
    returns, the object's callback is the one passed in: each snapshot is
    taken with the callback set to [None] and puts it back afterwards.  (A
    run in which a deep copy raises ends with the callback unset.) *)
Theorem callback_survives_snapshots fuel problem_ termination_ seed_
    verbose_ callback_ save_history_ pf_ evaluator_ w res w' :
  hooks_keep callback ->
  solve fuel problem_ termination_ seed_ verbose_ callback_ save_history_
    pf_ evaluator_ w = (Ok res, w') ->
  callback (alg w') = callback_.
Proof.
  intros Hk Hrun. pose proof Hk as (Hinit & Hnext & Hfin & Hcont & _ & _).
  unfold solve in Hrun.
  apply bind_Ok in Hrun as (u & w1 & Hsetup & Hrun).
  pose proof (solve_setup_Ok_seed _ _ _ _ _ _ _ _ _ _ _ Hsetup) as Hseed.
  apply (solve_setup_history _ _ _ _ _ _ _ _ _ _ _ Hseed) in Hsetup
    as (_ & _ & _ & Hc1 & _).
  apply bind_Ok in Hrun as (pop_ & w2 & Hsolve & Hrun).
  apply solve_extract_state in Hrun as ->.
  refine (_solve_preserves_ok (fun w => callback (alg w) = callback_) fuel
            problem_ _ _ _ _ _ _ _ w1 pop_ w2 Hc1 Hsolve).
  - intros g. apply preserves_ok_weaken, setattr_attr. by intros [].
  - intros p. apply preserves_ok_weaken, setattr_attr. by intros [].
  - by apply preserves_ok_weaken, invoke_attr.
  - by apply preserves_ok_weaken, invoke_attr.
  - by apply preserves_ok_weaken, invoke_attr.
  - intros t. by apply preserves_ok_weaken, invoke_attr.
  - intros first. by apply each_iteration_callback.
Qed.

(** *** The failures of the seeding and of the snapshot *)


(** X18: a bookkeeping pass that saves the history, on an object that is
    not verbose and whose callback, if any, returns and leaves the object
    alone: if the deep copy raises, the pass raises the same exception, and
    the object is left without its history and without its callback. *)
Theorem failed_snapshot_unsets_history first w e :
  verbose (alg w) = false ->
  save_history (alg w) = true ->
  (forall c, callback (alg w) = Some c -> call_callback c (alg w) = (Ok tt, alg w)) ->
  deepcopy_raises (set_callback None (set_history None (alg w))) = Some e ->
  exists w',
    _each_iteration first w = (Raise e, w') /\
    alg w' = set_callback None (set_history None (alg w)) /\
    history (alg w') = None /\ callback (alg w') = None.
Proof.
  destruct w as [[ev p tm f o s h vb fd cb sh g pp st] tr]. simpl.
  intros -> -> Hcb Hcopy.
  unfold _each_iteration.
  unfold bind at 1. unfold self at 1, gets at 1. cbn [alg verbose].
  unfold bind at 1. unfold self at 1, gets at 1.
  unfold bind at 1. unfold ret at 1.
  unfold bind at 1. unfold self at 1, gets at 1. cbn [alg callback].
  unfold bind at 1.
  assert (match cb with
          | Some c => invoke (fun _ => EvCallback) (call_callback c)
          | None => ret tt
          end {| alg := Build_Algorithm ev p tm f o s h false fd cb true g pp st;
                 trace := tr |} =
          (Ok tt, {| alg := Build_Algorithm ev p tm f o s h false fd cb true g pp st;
                     trace := tr ++ match cb with Some _ => [EvCallback] | None => [] end |}))
    as ->.
  { destruct cb as [c|]; [|by rewrite app_nil_r].
    unfold invoke. cbn [alg trace]. by rewrite (Hcb c eq_refl). }
  unfold bind, deepcopy, bind, self, setattr, modify, gets, raise, ret. simpl.
  rewrite Hcopy. by eexists.
Qed.

End DriverExtras.

Section ExtraRuns.
Import Driver Example.

Lemma display_rows_aligned_witness :
  let d := [("n_gen", "12", 5); ("n_eval", "1200", 8)]%string in
  fits_columns d /\
  exists names_row values_row,
    _display d true w0 =
      (Ok tt,
       {| alg := alg w0;
          trace := trace w0 ++
            [EvPrint banner; EvPrint names_row; EvPrint banner] ++
            [EvPrint values_row] |}) /\
    String.length banner = 70 /\
    String.length names_row = 16 /\
    String.length values_row = 16.
Proof.
  intros d.
  assert (fits_columns d) as Hfit by (repeat constructor; simpl; lia).
  split; [exact Hfit|].
  exact (display_rows_aligned d true w0 Hfit).
Defined.

Lemma example_hooks_keep {B} (f : Algorithm -> B) (p0 : Population) :
  (forall a, f (bump a) = f a) -> hooks_keep (H0 := hooks_of p0) f.
Proof.
  intros Hf. unfold hooks_keep, keeps_attr. simpl.
  repeat split; intros; try done; apply Hf.
Qed.

Lemma _solve_needs_history_witness :
  let w := {| alg := set_save_history true (set_termination (Some 3) (init 0));
              trace := [] |} in
  hooks_keep_bookkeeping (H0 := hooks_of pop1) /\
  history (alg w) = None /\
  save_history (alg w) = true /\
  forall pop_ w', _solve (H0 := hooks_of pop1) 10 1 w <> (Ok pop_, w').
Proof.
  intros w.
  pose proof (example_hooks_keep_bookkeeping pop1) as Hkeep.
  assert (history (alg w) = None) as Hh by reflexivity.
  assert (save_history (alg w) = true) as Hs by reflexivity.
  split; [exact Hkeep|]. split; [exact Hh|]. split; [exact Hs|].
  intros pop_ w'.
  exact (_solve_needs_history (H0 := hooks_of pop1) 10 1 w pop_ w' Hkeep Hh Hs).
Defined.

Lemma history_snapshots_nulled_witness :
  hooks_keep_bookkeeping (H0 := hooks_of pop1) /\
  exists res w',
    run pop1 1 3 true = (Ok res, w') /\
    exists h,
      history (alg w') = Some h /\
      Forall (fun s => history s = None /\ callback s = None) h /\
      res_history res = Some h.
Proof.
  pose proof (example_hooks_keep_bookkeeping pop1) as Hkeep.
  split; [exact Hkeep|].
  destruct (run pop1 1 3 true) as [[res| |] w'] eqn:Hrun;
    [|vm_compute in Hrun; discriminate Hrun..].
  exists res, w'. split; [reflexivity|].
  exact (history_snapshots_nulled (H0 := hooks_of pop1) 10 1 (Some 3) (Some 7%Z)
           false None true tt None w0 res w' Hkeep Hrun).
Defined.

Lemma result_reflects_object_witness :
  exists res w',
    run pop1 1 3 true = (Ok res, w') /\
    res_pop res = pop (alg w') /\
    res_history res = history (alg w') /\
    res_problem res = Some 1 /\
    res_pf res = Some tt.
Proof.
  destruct (run pop1 1 3 true) as [[res| |] w'] eqn:Hrun;
    [|vm_compute in Hrun; discriminate Hrun..].
  exists res, w'. split; [reflexivity|].
  exact (result_reflects_object (H0 := hooks_of pop1) 10 1 (Some 3) (Some 7%Z)
           false None true tt None w0 res w' Hrun).
Defined.

Lemma not_verbose_no_output_witness :
  let w := {| alg := set_history (Some []) (set_save_history true
                       (set_termination (Some 3) (init 0)));
              trace := [] |} in
  hooks_keep (H0 := hooks_of pop1) verbose /\
  verbose (alg w) = false /\
  exists r w',
    _solve (H0 := hooks_of pop1) 10 1 w = (r, w') /\
    exists t,
      trace w' = trace w ++ t /\
      Forall (fun ev => ev <> EvDisplayAttrs /\ forall line, ev <> EvPrint line) t.
Proof.
  intros w.
  assert (hooks_keep (H0 := hooks_of pop1) verbose) as Hkeep.
  { apply example_hooks_keep. by intros []. }
  assert (verbose (alg w) = false) as Hv by reflexivity.
  split; [exact Hkeep|]. split; [exact Hv|].
  destruct (_solve (H0 := hooks_of pop1) 10 1 w) as [r w'] eqn:Hrun.
  exists r, w'. split; [reflexivity|].
  exact (not_verbose_no_output (H0 := hooks_of pop1) 10 1 w r w' Hkeep Hv Hrun).
Defined.

Lemma configuration_stays_installed_witness :
  hooks_keep (H0 := hooks_of pop1) seed /\
  hooks_keep (H0 := hooks_of pop1) evaluator /\
  hooks_keep (H0 := hooks_of pop1) problem /\
  hooks_keep (H0 := hooks_of pop1) pf /\
  hooks_keep (H0 := hooks_of pop1) termination /\
  valid_seed (randint (Hooks := hooks_of pop1)) = true /\
  exists r w',
    solve (H0 := hooks_of pop1) 10 1 (Some 3) None false None true tt None w0 = (r, w') /\
    seed (alg w') = Some 42%Z /\
    evaluator (alg w') = Some tt /\
    problem (alg w') = Some 1 /\
    pf (alg w') = Some tt /\
    termination (alg w') = Some 3.
Proof.
  assert (hooks_keep (H0 := hooks_of pop1) seed) as Hs
    by (apply example_hooks_keep; by intros []).
  assert (hooks_keep (H0 := hooks_of pop1) evaluator) as He
    by (apply example_hooks_keep; by intros []).
  assert (hooks_keep (H0 := hooks_of pop1) problem) as Hp
    by (apply example_hooks_keep; by intros []).
  assert (hooks_keep (H0 := hooks_of pop1) pf) as Hf
    by (apply example_hooks_keep; by intros []).
  assert (hooks_keep (H0 := hooks_of pop1) termination) as Ht
    by (apply example_hooks_keep; by intros []).
  assert (valid_seed (randint (Hooks := hooks_of pop1)) = true) as Hseed
    by reflexivity.
  split; [exact Hs|]. split; [exact He|]. split; [exact Hp|].
  split; [exact Hf|]. split; [exact Ht|]. split; [exact Hseed|].
  destruct (solve (H0 := hooks_of pop1) 10 1 (Some 3) None false None true tt None w0)
    as [r w'] eqn:Hrun.
  exists r, w'. split; [reflexivity|].
  exact (configuration_stays_installed (H0 := hooks_of pop1) 10 1 (Some 3) None
           false None true tt None w0 r w' Hs He Hp Hf Ht Hseed Hrun).
Defined.

Lemma callback_survives_snapshots_witness :
  hooks_keep (H0 := hooks_of pop1) callback /\
  exists res w',
    solve (H0 := hooks_of pop1) 10 1 (Some 3) (Some 7%Z) false (Some tt) true tt
      None w0 = (Ok res, w') /\
    callback (alg w') = Some tt.
Proof.
  assert (hooks_keep (H0 := hooks_of pop1) callback) as Hk
    by (apply example_hooks_keep; by intros []).
  split; [exact Hk|].
  destruct (solve (H0 := hooks_of pop1) 10 1 (Some 3) (Some 7%Z) false (Some tt)
              true tt None w0) as [[res| |] w'] eqn:Hrun;
    [|vm_compute in Hrun; discriminate Hrun..].
  exists res, w'. split; [reflexivity|].
  exact (callback_survives_snapshots (H0 := hooks_of pop1) 10 1 (Some 3) (Some 7%Z)
           false (Some tt) true tt None w0 res w' Hk Hrun).
Defined.


Lemma failed_snapshot_unsets_history_witness :
  let a := set_callback (Some tt) (set_history (Some [])
             (set_save_history true (init 0))) in
  let w := {| alg := a; trace := [] |} in
  verbose a = false /\ save_history a = true /\
  history a = Some [] /\ callback a = Some tt /\
  exists w',
    _each_iteration (H0 := hooks_uncopyable pop1) true w = (Raise (Foreign 0), w') /\
    alg w' = set_callback None (set_history None a) /\
    history (alg w') = None /\ callback (alg w') = None.
Proof.
  intros a w.
  assert (verbose (alg w) = false) as Hv by reflexivity.
  assert (save_history (alg w) = true) as Hs by reflexivity.
  split; [exact Hv|]. split; [exact Hs|].
  split; [reflexivity|]. split; [reflexivity|].
  exact (failed_snapshot_unsets_history (H0 := hooks_uncopyable pop1) true w
           (Foreign 0) Hv Hs (fun c _ => eq_refl) eq_refl).
Defined.

End ExtraRuns.
